(** * Patchpilot: context assembly and streaming session

    A shallow embedding of [context/manager.py], [client/nvidia.py] and
    [session/manager.py], and the properties of the context assembler
    and of the retried streaming exchange.

    Python values are modelled as follows: a [str] is the list of its
    characters, an [int] is a [Z], a [set] of strings is a [gset], a
    [dict] is a [gmap], a list object is a Rocq list (and, where
    aliasing matters, a cell of a store of list objects). *)

From Stdlib Require Import ZArith List Ascii String Lia Bool.
From stdpp Require Import base gmap strings list.
Import ListNotations.

Local Open Scope Z_scope.

(** ** Python strings, lengths and slices *)

Module Py.

Definition str := list ascii.

(** A string literal of the source. *)
Definition lit (s : string) : str := list_ascii_of_string s.

Definition nl : ascii := "010"%char.

(** [len(l)] *)
Definition len {A} (l : list A) : Z := Z.of_nat (length l).

(** Normalisation of a slice bound [i] against a sequence of length [n]:
    a negative bound counts from the end, and the result is clamped
    to [0..n]. *)
Definition norm_index (n i : Z) : nat :=
  Z.to_nat (if i <? 0 then Z.max 0 (n + i) else Z.min i n).

(** [l[:stop]] *)
Definition slice_to {A} (l : list A) (stop : Z) : list A :=
  firstn (norm_index (len l) stop) l.

(** [l[start:]] *)
Definition slice_from {A} (l : list A) (start : Z) : list A :=
  skipn (norm_index (len l) start) l.

(** [s.startswith(p)] *)
Fixpoint startswith (s p : str) {struct p} : bool :=
  match p, s with
  | [], _ => true
  | _ :: _, [] => false
  | c :: p', d :: s' => if Ascii.eqb c d then startswith s' p' else false
  end.

(** [sub in s] for strings: some suffix of [s] starts with [sub]. *)
Fixpoint contains (s sub : str) : bool :=
  startswith s sub ||
  match s with
  | [] => false
  | _ :: s' => contains s' sub
  end.

(** [s.split("\n", 1)[0]]: the text before the first line break. *)
Fixpoint first_line (s : str) : str :=
  match s with
  | [] => []
  | c :: s' => if Ascii.eqb c nl then [] else c :: first_line s'
  end.

(** A string made of [n] copies of one character. *)
Definition rep (n : nat) (c : ascii) : str := repeat c n.

End Py.
Import Py.

(** ** [context/manager.py] *)

Record Message := mkMessage { role : str; content : str }.

(** [Message.token_estimate] *)
Definition token_estimate (m : Message) : Z :=
  Z.max 1 (len (content m) / 4).

(** [Message.to_dict] *)
Definition to_dict (m : Message) : gmap str str :=
  <[lit "content" := content m]> (<[lit "role" := role m]> ∅).

Record ContextManager := mkContextManager {
  _system : Message;
  _max_total : Z;
  _max_file_tokens : Z;
  _max_convo : Z;
  _file_messages : list Message;
  _convo_messages : list Message;
  _pinned_files : gset str
}.

(** [ContextManager.__init__] *)
Definition init (system_prompt : str)
    (max_total_tokens max_file_tokens max_convo_messages : Z) : ContextManager :=
  {| _system := mkMessage (lit "system") system_prompt;
     _max_total := max_total_tokens;
     _max_file_tokens := max_file_tokens;
     _max_convo := max_convo_messages;
     _file_messages := [];
     _convo_messages := [];
     _pinned_files := ∅ |}.

Definition TRUNCATED : str :=
  [nl; nl] ++ lit "/* ...TRUNCATED... (tail follows) */" ++ [nl; nl].

(** [ContextManager._apply_file_budget], as a function of the
    per-file token budget. *)
Definition apply_file_budget (max_file_tokens : Z) (text : str) : str :=
  let max_chars := max_file_tokens * 4 in
  if len text <=? max_chars then text
  else
    let half := max_chars / 2 in
    let head := slice_to text half in
    let tail := slice_from text (- (half - 100)) in
    head ++ TRUNCATED ++ tail.

Definition _apply_file_budget (self : ContextManager) (text : str) : str :=
  apply_file_budget (_max_file_tokens self) text.

(** [tag = f"[PROJECT_FILE] {path}"] *)
Definition file_tag (path : str) : str := lit "[PROJECT_FILE] " ++ path.

(** [m.content.startswith(tag + "\n")] *)
Definition is_entry (path : str) (m : Message) : bool :=
  startswith (content m) (file_tag path ++ [nl]).

(** [[m for m in msgs if not m.content.startswith(tag + "\n")]] *)
Definition without_entry (path : str) (msgs : list Message) : list Message :=
  List.filter (fun m => negb (is_entry path m)) msgs.

Definition set_files (self : ContextManager) (fs : list Message) : ContextManager :=
  {| _system := _system self; _max_total := _max_total self;
     _max_file_tokens := _max_file_tokens self; _max_convo := _max_convo self;
     _file_messages := fs; _convo_messages := _convo_messages self;
     _pinned_files := _pinned_files self |}.

Definition set_convo (self : ContextManager) (cs : list Message) : ContextManager :=
  {| _system := _system self; _max_total := _max_total self;
     _max_file_tokens := _max_file_tokens self; _max_convo := _max_convo self;
     _file_messages := _file_messages self; _convo_messages := cs;
     _pinned_files := _pinned_files self |}.

Definition set_pinned (self : ContextManager) (ps : gset str) : ContextManager :=
  {| _system := _system self; _max_total := _max_total self;
     _max_file_tokens := _max_file_tokens self; _max_convo := _max_convo self;
     _file_messages := _file_messages self; _convo_messages := _convo_messages self;
     _pinned_files := ps |}.

(** The entry [upsert_file] stores for [path] under a per-file budget:
    [Message("user", f"{tag}\n{budgeted}")]. *)
Definition file_entry (max_file_tokens : Z) (path text : str) : Message :=
  mkMessage (lit "user") (file_tag path ++ [nl] ++ apply_file_budget max_file_tokens text).

(** [ContextManager.upsert_file] *)
Definition upsert_file (self : ContextManager) (path text : str) : ContextManager :=
  let self1 := set_files self (without_entry path (_file_messages self)) in
  let budgeted := _apply_file_budget self1 text in
  set_files self1
    (_file_messages self1 ++ [mkMessage (lit "user") (file_tag path ++ [nl] ++ budgeted)]).

(** [ContextManager._trim_convo] *)
Definition _trim_convo (self : ContextManager) : ContextManager :=
  if len (_convo_messages self) >? _max_convo self
  then set_convo self (slice_from (_convo_messages self) (- _max_convo self))
  else self.

(** [ContextManager.add_user] *)
Definition add_user (self : ContextManager) (text : str) : ContextManager :=
  _trim_convo (set_convo self (_convo_messages self ++ [mkMessage (lit "user") text])).

(** [ContextManager.add_assistant] *)
Definition add_assistant (self : ContextManager) (text : str) : ContextManager :=
  _trim_convo (set_convo self (_convo_messages self ++ [mkMessage (lit "assistant") text])).

(** [ContextManager.reset_convo] *)
Definition reset_convo (self : ContextManager) : ContextManager :=
  set_convo self [].

Section Paths.

(** [os.path.abspath]: the canonical form of a path, which depends on
    the working directory of the process. *)
Variable abspath : str -> str.

(** [ContextManager.remove_file] *)
Definition remove_file (self : ContextManager) (path : str) (force : bool)
  : bool * ContextManager :=
  let path := abspath path in
  if bool_decide (path ∈ _pinned_files self) && negb force then (false, self)
  else
    let self1 := set_files self (without_entry path (_file_messages self)) in
    (true, set_pinned self1 (_pinned_files self1 ∖ {[path]})).

(** [ContextManager.pin_file] *)
Definition pin_file (self : ContextManager) (path : str) : bool * ContextManager :=
  let path := abspath path in
  if existsb (is_entry path) (_file_messages self)
  then (true, set_pinned self ({[path]} ∪ _pinned_files self))
  else (false, self).

(** [ContextManager.unpin_file] *)
Definition unpin_file (self : ContextManager) (path : str) : ContextManager :=
  set_pinned self (_pinned_files self ∖ {[abspath path]}).

(** [ContextManager.is_pinned] *)
Definition is_pinned (self : ContextManager) (path : str) : bool :=
  bool_decide (abspath path ∈ _pinned_files self).

End Paths.

(** The body of the loop of [file_paths]: the paths one message adds. *)
Definition entry_paths (m : Message) : list str :=
  let first_line := first_line (content m) in
  if startswith first_line (lit "[PROJECT_FILE] ")
  then [slice_from first_line (len (lit "[PROJECT_FILE] "))]
  else [].

(** [ContextManager.file_paths] *)
Definition file_paths (self : ContextManager) : list str :=
  flat_map entry_paths (_file_messages self).

(** [sum(m.token_estimate() for m in msgs)] *)
Definition sum_tokens (msgs : list Message) : Z :=
  fold_right (fun m acc => token_estimate m + acc) 0 msgs.

(** [ContextManager.estimated_total_tokens] *)
Definition estimated_total_tokens (self : ContextManager) : Z :=
  token_estimate (_system self) + sum_tokens (_file_messages self)
  + sum_tokens (_convo_messages self).

(** [ephemeral = [Message("user", e)] if e else []]: [None] and the
    empty string are both falsy. *)
Definition ephemeral_of (e : option str) : list Message :=
  match e with
  | Some (c :: s) => [mkMessage (lit "user") (c :: s)]
  | _ => []
  end.

(** The local function [total_tokens(convo)] of [build_messages]. *)
Definition total_tokens (self : ContextManager) (ephemeral convo : list Message) : Z :=
  token_estimate (_system self) + sum_tokens (_file_messages self)
  + sum_tokens convo + sum_tokens ephemeral.

(** [while total_tokens(convo) > self._max_total and convo: convo.pop(0)] *)
Fixpoint drop_oldest (self : ContextManager) (ephemeral convo : list Message)
  : list Message :=
  match convo with
  | [] => []
  | _ :: rest =>
      if total_tokens self ephemeral convo >? _max_total self
      then drop_oldest self ephemeral rest
      else convo
  end.

(** [Message(m.role, self._apply_file_budget(m.content[: self._max_file_tokens * 2]))] *)
Definition shrink_file (self : ContextManager) (m : Message) : Message :=
  mkMessage (role m)
    (_apply_file_budget self (slice_to (content m) (_max_file_tokens self * 2))).

(** The file messages [build_messages] sends, given the conversation
    messages left by the loop. *)
Definition built_files (self : ContextManager) (ephemeral convo : list Message)
  : list Message :=
  if total_tokens self ephemeral convo >? _max_total self
  then map (shrink_file self) (_file_messages self)
  else _file_messages self.

(** [ContextManager.build_messages], on a manager whose lists are taken
    by value. *)
Definition build_messages (self : ContextManager) (e : option str)
  : list (gmap str str) :=
  let ephemeral := ephemeral_of e in
  let convo := drop_oldest self ephemeral (_convo_messages self) in
  let file_msgs := built_files self ephemeral convo in
  map to_dict ([_system self] ++ file_msgs ++ convo ++ ephemeral).

(** The estimate of [Message.token_estimate], read off a message dict. *)
Definition dict_tokens (d : gmap str str) : Z :=
  Z.max 1 (len (default [] (d !! lit "content")) / 4).

Definition dicts_tokens (ds : list (gmap str str)) : Z :=
  fold_right (fun d acc => dict_tokens d + acc) 0 ds.

(** ** [build_messages] over a store of list objects

    [build_messages] works on copies: [list(self._convo_messages)] and
    [list(self._file_messages)] are new list objects, and [convo.pop(0)]
    mutates the copy. Here the two list attributes of the manager are
    references into a store of list objects, so that the difference
    between mutating a copy and mutating the attribute is visible. *)

Module Store.

Definition loc := nat.

Abbreviation heap := (gmap loc (list Message)).

Record Manager := mkManager {
  system : Message;
  max_total : Z;
  max_file_tokens : Z;
  max_convo : Z;
  file_messages : loc;
  convo_messages : loc;
  pinned_files : gset str
}.

(** The items of the list object at [l]. *)
Definition items (h : heap) (l : loc) : list Message := default [] (h !! l).

(** A new list object holding [ms]. *)
Definition alloc (h : heap) (ms : list Message) : loc * heap :=
  let l := fresh (dom h) in (l, <[l := ms]> h).

(** [list(x)] *)
Definition list_copy (h : heap) (x : loc) : loc * heap := alloc h (items h x).

(** [x.pop(0)] on a non-empty list object. *)
Definition pop0 (h : heap) (x : loc) : heap := <[x := tl (items h x)]> h.

(** [h'] has every list object of [h], with the same items. *)
Definition extends (h h' : heap) : Prop :=
  forall l, l ∈ dom h -> h' !! l = h !! l.

(** The manager whose attributes are the current values of the list
    objects. *)
Definition value (self : Manager) (h : heap) : ContextManager :=
  {| _system := system self; _max_total := max_total self;
     _max_file_tokens := max_file_tokens self; _max_convo := max_convo self;
     _file_messages := items h (file_messages self);
     _convo_messages := items h (convo_messages self);
     _pinned_files := pinned_files self |}.

(** The local function [total_tokens(convo)]: it reads
    [self._file_messages] and [convo] when it is called. *)
Definition total_tokens (self : Manager) (ephemeral : list Message)
    (h : heap) (convo : loc) : Z :=
  token_estimate (system self) + sum_tokens (items h (file_messages self))
  + sum_tokens (items h convo) + sum_tokens ephemeral.

(** [while total_tokens(convo) > self._max_total and convo: convo.pop(0)],
    with one unit of [fuel] per iteration. *)
Fixpoint drop_loop (fuel : nat) (self : Manager) (ephemeral : list Message)
    (convo : loc) (h : heap) : heap :=
  match fuel with
  | O => h
  | S fuel' =>
      if (total_tokens self ephemeral h convo >? max_total self)
         && negb (bool_decide (items h convo = []))
      then drop_loop fuel' self ephemeral convo (pop0 h convo)
      else h
  end.

(** The condition of the loop. *)
Definition loop_condition (self : Manager) (ephemeral : list Message)
    (convo : loc) (h : heap) : bool :=
  (total_tokens self ephemeral h convo >? max_total self)
  && negb (bool_decide (items h convo = [])).

(** [build_messages]: the returned dicts, the manager and the store
    when the method returns. No statement of the method assigns an
    attribute of [self]. *)
Definition build_messages (self : Manager) (e : option str) (h : heap)
  : list (gmap str str) * Manager * heap :=
  let ephemeral := ephemeral_of e in
  let '(convo, h1) := list_copy h (convo_messages self) in
  let h2 := drop_loop (length (items h1 convo)) self ephemeral convo h1 in
  let '(file_msgs, h3) := list_copy h2 (file_messages self) in
  let '(file_msgs, h4) :=
    if total_tokens self ephemeral h3 convo >? max_total self
    then alloc h3 (map (fun m =>
           mkMessage (role m)
             (apply_file_budget (max_file_tokens self)
                (slice_to (content m) (max_file_tokens self * 2))))
           (items h3 file_msgs))
    else (file_msgs, h3) in
  let '(all_messages, h5) :=
    alloc h4 ([system self] ++ items h4 file_msgs ++ items h4 convo ++ ephemeral) in
  (map to_dict (items h5 all_messages), self, h5).

End Store.

(** ** [client/base.py] and [client/nvidia.py] *)

Record StreamChunk := mkStreamChunk { chunk_content : str; chunk_reasoning : str }.

(** The exceptions the streaming code tells apart. [APIConnectionError]
    and [RateLimitError] are subclasses of [APIError]; they are separate
    constructors here, and [APIError] stands for every other API error. *)
Inductive runtime_message :=
  | ApiErrorMessage (e : str)
      (* f"API error: {e}" *)
  | RetriesFailedMessage (max_retries : Z) (last_exc : option str).
      (* f"All {self._max_retries} retries failed: {last_exc}" *)

Inductive exn :=
  | APIConnectionError (msg : str)
  | RateLimitError (msg : str)
  | APIError (msg : str)
  | RuntimeError (msg : runtime_message)
  | KeyboardInterrupt
  | OtherException (msg : str).

(** [str(e)] *)
Definition exn_text (e : exn) : str :=
  match e with
  | APIConnectionError m | RateLimitError m | APIError m | OtherException m => m
  | RuntimeError _ | KeyboardInterrupt => []
  end.

(** How the iteration of a generator ends. *)
Inductive stream_end :=
  | Returned
  | Raised (e : exn).

(** The chunks of the completion stream of the remote endpoint. *)
Record Delta := mkDelta { reasoning_content : option str; delta_content : option str }.
Record Choice := mkChoice { delta : option Delta }.
Record CompletionChunk := mkCompletionChunk { choices : option (list Choice) }.

(** What one call of [self._client.chat.completions.create] does: it
    raises, or it returns a stream that delivers chunks and then ends
    or raises. *)
Inductive attempt :=
  | CreateRaises (e : exn)
  | Streams (chunks : list CompletionChunk) (fin : stream_end).

(** The chunks an attempt delivers and how it ends. *)
Definition attempt_chunks (a : attempt) : list CompletionChunk :=
  match a with
  | CreateRaises _ => []
  | Streams chunks _ => chunks
  end.

Definition attempt_end (a : attempt) : stream_end :=
  match a with
  | CreateRaises e => Raised e
  | Streams _ fin => fin
  end.

Definition nonempty (s : str) : bool :=
  match s with [] => false | _ :: _ => true end.

(** One iteration of the loop of [NvidiaProvider._parse_stream]. *)
Definition parse_chunk (c : CompletionChunk) : list StreamChunk :=
  match choices c with
  | None | Some [] => []
  | Some (ch :: _) =>
      match delta ch with
      | None => []
      | Some d =>
          let reasoning := default [] (reasoning_content d) in
          let text := default [] (delta_content d) in
          if nonempty reasoning || nonempty text
          then [mkStreamChunk text reasoning]
          else []
      end
  end.

(** [NvidiaProvider._parse_stream] *)
Definition _parse_stream (completion : list CompletionChunk) : list StreamChunk :=
  flat_map parse_chunk completion.

Definition is_transient (e : exn) : bool :=
  match e with
  | APIConnectionError _ | RateLimitError _ => true
  | _ => false
  end.

Section Provider.

(** Python floats, and the product of a float and an integer. *)
Variable float : Type.
Variable float_mul : float -> Z -> float.

(** What the consumer of a stream sees: the chunks it was given, and
    how the iteration ended. *)
Record stream_run := mkRun { delivered : list StreamChunk; ended : stream_end }.

(** What [NvidiaProvider.stream] does, in order: requests to the
    endpoint, yielded fragments, printed retry notices and sleeps. *)
Inductive event :=
  | Request (attempt_no : nat)
  | Yield (c : StreamChunk)
  | RetryNotice (attempt_no : Z) (max_retries : Z) (e : exn) (wait : float)
  | Sleep (wait : float).

Record NvidiaProvider := mkNvidiaProvider {
  _model : str;
  _max_retries : Z;
  _retry_delay : float
}.

(** What the [except APIError] clause raises, and what passes through
    the [try] statement unchanged. *)
Definition reraise (e : exn) : exn :=
  match e with
  | APIError m => RuntimeError (ApiErrorMessage m)
  | _ => e
  end.

(** The body of [for attempt in range(self._max_retries)], from
    iteration [attempt_no] on, with [remaining] iterations left;
    [create k] is what the [k]-th call of the endpoint does. *)
Fixpoint stream_from (self : NvidiaProvider) (create : nat -> attempt)
    (attempt_no remaining : nat) (last_exc : option exn)
  : list event * stream_end :=
  match remaining with
  | O =>
      ([], Raised (RuntimeError
             (RetriesFailedMessage (_max_retries self) (exn_text <$> last_exc))))
  | S remaining' =>
      let yielded := map Yield (_parse_stream (attempt_chunks (create attempt_no))) in
      match attempt_end (create attempt_no) with
      | Returned => (Request attempt_no :: yielded, Returned)
      | Raised e =>
          if is_transient e then
            let wait := float_mul (_retry_delay self) (2 ^ Z.of_nat attempt_no) in
            let '(rest, fin) :=
              stream_from self create (S attempt_no) remaining' (Some e) in
            (Request attempt_no :: yielded
               ++ [RetryNotice (Z.of_nat attempt_no + 1) (_max_retries self) e wait;
                   Sleep wait]
               ++ rest, fin)
          else (Request attempt_no :: yielded, Raised (reraise e))
      end
  end.

(** [NvidiaProvider.stream], run to its end. *)
Definition nvidia_stream (self : NvidiaProvider) (create : nat -> attempt)
  : list event * stream_end :=
  stream_from self create 0 (Z.to_nat (_max_retries self)) None.

(** The fragments a trace yields, the waits it makes and the requests
    it sends. *)
Definition yields (tr : list event) : list StreamChunk :=
  flat_map (fun ev => match ev with Yield c => [c] | _ => [] end) tr.

Definition waits (tr : list event) : list float :=
  flat_map (fun ev => match ev with Sleep w => [w] | _ => [] end) tr.

Definition requests (tr : list event) : list nat :=
  flat_map (fun ev => match ev with Request k => [k] | _ => [] end) tr.

(** [ModelProvider]: the interface of [client/base.py]. *)
Class ModelProvider (P : Type) := {
  stream : P -> list (gmap str str) -> float -> Z -> stream_run;
  name : P -> str
}.

(** [NvidiaProvider] against an endpoint whose behaviour is given
    per request. *)
Record NvidiaEndpoint := mkNvidiaEndpoint {
  provider : NvidiaProvider;
  endpoint : list (gmap str str) -> float -> Z -> nat -> attempt
}.

#[local] Instance nvidia_provider : ModelProvider NvidiaEndpoint := {
  stream p messages temperature max_tokens :=
    let '(tr, fin) :=
      nvidia_stream (provider p) (endpoint p messages temperature max_tokens) in
    mkRun (yields tr) fin;
  name p := lit "nvidia:" ++ _model (provider p)
}.

(** ** [session/manager.py] *)

(** The calls made on the display. *)
Inductive display_call :=
  | DisplayReasoning (s : str)
  | DisplayStream (s : str)
  | DisplayInfo (s : str)
  | DisplayError (e : runtime_message)
  | DisplayNewline.

Record SessionManager (P : Type) := mkSessionManager {
  _provider : P;
  _ctx : ContextManager;
  _temperature : float;
  _max_tokens : Z
}.
Arguments _provider {P}.
Arguments _ctx {P}.
Arguments _temperature {P}.
Arguments _max_tokens {P}.

(** The outcome of a call: a returned value, or an exception that
    leaves the method. *)
Inductive outcome (A : Type) :=
  | Return (a : A)
  | Raise (e : exn).
Arguments Return {A}.
Arguments Raise {A}.

Record send_result := mkSendResult {
  result : outcome (option str);
  ctx_after : ContextManager;
  displayed : list display_call
}.

(** The body of the [for chunk in ...] loop: the display calls of one
    chunk, and what it adds to [full_response]. *)
Definition show_chunk (c : StreamChunk) : list display_call :=
  (if nonempty (chunk_reasoning c) then [DisplayReasoning (chunk_reasoning c)] else [])
  ++ (if nonempty (chunk_content c) then [DisplayStream (chunk_content c)] else []).

Definition collect (cs : list StreamChunk) : str :=
  flat_map (fun c => if nonempty (chunk_content c) then chunk_content c else []) cs.

Definition interrupted_notice : str := [nl] ++ lit "[Stream interrupted by user]".

(** [SessionManager.send] *)
Definition send {P} `{ModelProvider P} (self : SessionManager P)
    (user_message : str) (record_in_history : bool) : send_result :=
  let ctx1 := if record_in_history then add_user (_ctx self) user_message
              else _ctx self in
  let messages :=
    build_messages ctx1 (if record_in_history then None else Some user_message) in
  let run := stream (_provider self) messages (_temperature self) (_max_tokens self) in
  let full_response := collect (delivered run) in
  let shown := flat_map show_chunk (delivered run) in
  let finalize (calls : list display_call) :=
    {| result := Return (if nonempty full_response then Some full_response else None);
       ctx_after := if nonempty full_response then add_assistant ctx1 full_response
                    else ctx1;
       displayed := calls ++ [DisplayNewline] |} in
  match ended run with
  | Returned => finalize shown
  | Raised KeyboardInterrupt => finalize (shown ++ [DisplayInfo interrupted_notice])
  | Raised (RuntimeError m) => finalize (shown ++ [DisplayError m])
  | Raised e => {| result := Raise e; ctx_after := ctx1; displayed := shown |}
  end.

End Provider.

Arguments Request {float}.
Arguments Yield {float}.
Arguments Sleep {float}.
Arguments RetryNotice {float}.
Arguments yields {float}.
Arguments waits {float}.
Arguments requests {float}.
Arguments mkNvidiaProvider {float}.
Arguments _model {float}.
Arguments _max_retries {float}.
Arguments _retry_delay {float}.
Arguments stream_from {float}.
Arguments nvidia_stream {float}.
Arguments mkNvidiaEndpoint {float}.
Arguments provider {float}.
Arguments endpoint {float}.
Arguments stream {float P ModelProvider}.
Arguments name {float P ModelProvider}.
Arguments mkSessionManager {float P}.
Arguments _provider {float P}.
Arguments _ctx {float P}.
Arguments _temperature {float P}.
Arguments _max_tokens {float P}.
Arguments send {float P H}.
Arguments Return {A}.
Arguments Raise {A}.

(** ** Sequences of calls *)

(** A conversation turn to append. *)
Inductive turn :=
  | UserTurn (text : str)
  | AssistantTurn (text : str).

Definition turn_message (t : turn) : Message :=
  match t with
  | UserTurn text => mkMessage (lit "user") text
  | AssistantTurn text => mkMessage (lit "assistant") text
  end.

Definition append_turn (self : ContextManager) (t : turn) : ContextManager :=
  match t with
  | UserTurn text => add_user self text
  | AssistantTurn text => add_assistant self text
  end.

(** The manager after a sequence of [add_user]/[add_assistant] calls. *)
Definition append_turns (self : ContextManager) (ts : list turn) : ContextManager :=
  fold_left append_turn ts self.

(** The last [n] items of a list. *)
Definition lastn {A} (n : nat) (l : list A) : list A :=
  skipn (length l - n) l.

(** The manager after a sequence of [upsert_file(path, text)] calls. *)
Definition upserts (self : ContextManager) (ops : list (str * str)) : ContextManager :=
  fold_left (fun cm op => upsert_file cm (fst op) (snd op)) ops self.

(** The text of the latest call for [path] in a sequence of calls. *)
Fixpoint latest (ops : list (str * str)) (path : str) : option str :=
  match ops with
  | [] => None
  | (p, text) :: ops' =>
      match latest ops' path with
      | Some text' => Some text'
      | None => if decide (p = path) then Some text else None
      end
  end.

(** The entries of the file layer that [upsert_file], [remove_file] and
    [pin_file] take for the entries of [path]. *)
Definition entries_for (path : str) (self : ContextManager) : list Message :=
  List.filter (is_entry path) (_file_messages self).

Definition no_line_break (s : str) : Prop := ~ In nl s.

(** The attempt [k] ends with a connection error or a rate limit. *)
Definition fails_transiently (create : nat -> attempt) (k : nat) : Prop :=
  exists e, attempt_end (create k) = Raised e /\ is_transient e = true.

(** The wait after the failed attempt [k]:
    [self._retry_delay * (2 ** attempt)]. *)
Definition backoff {float : Type} (float_mul : float -> Z -> float)
    (self : NvidiaProvider float) (k : nat) : float :=
  float_mul (_retry_delay self) (2 ^ Z.of_nat k).

(** ** Managers used as examples *)

(** A manager with one small document whose system message fits the
    budget and whose built list does not. *)
Definition over_budget_manager : ContextManager :=
  upsert_file (init [] 1 1 40) (lit "/a") (lit "x").

(** Two documents, the first of which is then loaded again. *)
Definition two_files : ContextManager :=
  upsert_file (upsert_file (init [] 4500 1500 40) (lit "/a") (lit "1")) (lit "/b") (lit "2").

(** A manager over its global budget: one document of 205 characters
    under a per-file budget of 51 tokens, and one user turn. *)
Definition crowded_manager : ContextManager :=
  add_user (upsert_file (init (lit "s") 10 51 40) (lit "/a") (rep 205 "x"))
           (lit "hello").

(** ** [ContextManager.get_stats] *)

Module Stats.

(** An item of the list under the key [files]. *)
Record file := mkFile { path : str; tokens : Z; pinned : bool }.

(** The dict [get_stats] returns, by key. *)
Record t := mkStats {
  total_tokens : Z;
  max_total : Z;
  file_count : Z;
  pinned_count : Z;
  convo_messages : Z;
  files : list file
}.

End Stats.

(** The body of the loop of [get_stats]: the items one message adds. *)
Definition file_stats_of (self : ContextManager) (m : Message) : list Stats.file :=
  let tag := lit "[PROJECT_FILE] " in
  if startswith (content m) tag
  then
    let path := slice_from (first_line (content m)) (len tag) in
    [Stats.mkFile path (token_estimate m) (bool_decide (path ∈ _pinned_files self))]
  else [].

(** [ContextManager.get_stats] *)
Definition get_stats (self : ContextManager) : Stats.t :=
  let file_stats := flat_map (file_stats_of self) (_file_messages self) in
  {| Stats.total_tokens := estimated_total_tokens self;
     Stats.max_total := _max_total self;
     Stats.file_count := len (_file_messages self);
     Stats.pinned_count := Z.of_nat (size (_pinned_files self));
     Stats.convo_messages := len (_convo_messages self);
     Stats.files := file_stats |}.

(** ** Sequences of calls on a [ContextManager] *)

Inductive ctx_op :=
  | OpUpsert (path text : str)
  | OpRemove (path : str) (force : bool)
  | OpPin (path : str)
  | OpUnpin (path : str)
  | OpAddUser (text : str)
  | OpAddAssistant (text : str)
  | OpReset.

Definition ctx_step (abspath : str -> str) (self : ContextManager) (op : ctx_op)
  : ContextManager :=
  match op with
  | OpUpsert path text => upsert_file self path text
  | OpRemove path force => snd (remove_file abspath self path force)
  | OpPin path => snd (pin_file abspath self path)
  | OpUnpin path => unpin_file abspath self path
  | OpAddUser text => add_user self text
  | OpAddAssistant text => add_assistant self text
  | OpReset => reset_convo self
  end.

Definition ctx_run (abspath : str -> str) (self : ContextManager) (ops : list ctx_op)
  : ContextManager :=
  fold_left (ctx_step abspath) ops self.

(** The paths a call works on hold no line break. *)
Definition op_no_line_break (abspath : str -> str) (op : ctx_op) : Prop :=
  match op with
  | OpUpsert path _ => no_line_break path
  | OpRemove path _ | OpPin path | OpUnpin path => no_line_break (abspath path)
  | _ => True
  end.

(** Every entry of the file layer is one that [upsert_file] stores for
    a path without line break, no such path has two entries, and every
    pinned path has an entry. *)
Definition files_well_formed (self : ContextManager) : Prop :=
  (forall m, In m (_file_messages self) ->
     exists q text, no_line_break q
                    /\ m = file_entry (_max_file_tokens self) q text)
  /\ (forall q, no_line_break q -> (length (entries_for q self) <= 1)%nat)
  /\ (forall q, q ∈ _pinned_files self ->
        no_line_break q /\ existsb (is_entry q) (_file_messages self) = true).

(** ** [OllamaProvider] *)

(** One iteration of the loop of [OllamaProvider.stream]. *)
Definition ollama_parse_chunk (c : CompletionChunk) : list StreamChunk :=
  match choices c with
  | None | Some [] => []
  | Some (ch :: _) =>
      let text :=
        match delta ch with
        | Some d => default [] (delta_content d)
        | None => []
        end in
      if nonempty text then [mkStreamChunk text []] else []
  end.

(** [OllamaProvider.stream], run to its end: one call of the endpoint. *)
Definition ollama_stream (create : attempt) : stream_run :=
  mkRun (flat_map ollama_parse_chunk (attempt_chunks create)) (attempt_end create).

Record OllamaProvider (float : Type) := mkOllamaProvider {
  ollama_model : str;
  ollama_endpoint : list (gmap str str) -> float -> Z -> attempt
}.
Arguments mkOllamaProvider {float}.
Arguments ollama_model {float}.
Arguments ollama_endpoint {float}.

#[export] Instance ollama_provider {float : Type}
  : ModelProvider float (OllamaProvider float) := {
  stream p messages temperature max_tokens :=
    ollama_stream (ollama_endpoint p messages temperature max_tokens);
  name p := lit "ollama:" ++ ollama_model p
}.

(** [APIError] and its subclasses. *)
Definition is_api_error (e : exn) : bool :=
  match e with
  | APIConnectionError _ | RateLimitError _ | APIError _ => true
  | _ => false
  end.

(** The first statements of [SessionManager.send]: the context after
    the optional [add_user], and the messages given to the provider. *)
Definition send_context (ctx : ContextManager) (user_message : str)
    (record_in_history : bool) : ContextManager :=
  if record_in_history then add_user ctx user_message else ctx.

Definition send_messages (ctx : ContextManager) (user_message : str)
    (record_in_history : bool) : list (gmap str str) :=
  build_messages (send_context ctx user_message record_in_history)
    (if record_in_history then None else Some user_message).

(** ** Python dicts with string keys, in insertion order *)

Module Dict.

Definition t (V : Type) := list (str * V).

Definition has_key {V} (k : str) (kv : str * V) : bool := bool_decide (fst kv = k).

(** [d.get(k)] *)
Definition get {V} (d : t V) (k : str) : option V :=
  snd <$> List.find (has_key k) d.

(** [k in d] *)
Definition contains {V} (d : t V) (k : str) : bool := existsb (has_key k) d.

(** [d[k] = v]: a present key keeps its place. *)
Definition set {V} (d : t V) (k : str) (v : V) : t V :=
  if contains d k
  then map (fun kv => if has_key k kv then (k, v) else kv) d
  else d ++ [(k, v)].

(** [d.pop(k, None)]: the dict without the key. *)
Definition pop {V} (d : t V) (k : str) : t V :=
  List.filter (fun kv => negb (has_key k kv)) d.

(** [list(d.keys())] *)
Definition keys {V} (d : t V) : list str := map fst d.

End Dict.

(** ** [files/operations.py]: [SnippetManager] *)

Module Snippets.

(** [self._snippets] *)
Definition t := Dict.t str.

Definition init : t := [].

Definition save (self : t) (name code : str) : t := Dict.set self name code.

Definition get (self : t) (name : str) : option str := Dict.get self name.

(** [self._snippets.pop(name, None) is not None] *)
Definition delete (self : t) (name : str) : bool * t :=
  (bool_decide (Dict.get self name <> None), Dict.pop self name).

Definition list_names (self : t) : list str := Dict.keys self.

Definition as_context_block (self : t) (name : str) : option str :=
  match get self name with
  | None => None
  | Some code => Some (lit "[SNIPPET] " ++ name ++ [nl] ++ code)
  end.

End Snippets.

(** ** [files/manager.py]: [FileManager] *)

(** What [FileManager._read] returns: [(text, None)], or [(None, message)]
    with a message that is a literal or begins with one, hence is not
    empty. *)
Inductive read_result :=
  | ReadOk (text : str)
  | ReadError (message : str).

(** Comparison of strings, character by character. *)
Fixpoint str_leb (a b : str) : bool :=
  match a, b with
  | [], _ => true
  | _ :: _, [] => false
  | x :: a', y :: b' =>
      if (nat_of_ascii x <? nat_of_ascii y)%nat then true
      else if (nat_of_ascii y <? nat_of_ascii x)%nat then false
      else str_leb a' b'
  end.

Fixpoint insert_sorted (x : str) (l : list str) : list str :=
  match l with
  | [] => [x]
  | y :: l' => if str_leb x y then x :: l else y :: insert_sorted x l'
  end.

(** [sorted(files)] *)
Definition sorted (files : list str) : list str :=
  fold_right insert_sorted [] files.

Module Files.

Record FileManager := mkFileManager {
  _ctx : ContextManager;
  _max_files : Z;
  _extensions : list str;
  _store : Dict.t str
}.

(** [FileManager.__init__] *)
Definition init (context : ContextManager) (max_files : Z)
    (default_extensions : list str) : FileManager :=
  mkFileManager context max_files default_extensions [].

Definition set_state (self : FileManager) (ctx : ContextManager) (store : Dict.t str)
  : FileManager :=
  mkFileManager ctx (_max_files self) (_extensions self) store.

Section Os.

(** [os.path.abspath], [FileManager._read] on the files of the disk, and
    [glob.glob(os.path.join(folder, "**", ext), recursive=True)]. *)
Variable abspath : str -> str.
Variable _read : str -> read_result.
Variable glob : str -> str -> list str.

(** [FileManager.load] *)
Definition load (self : FileManager) (path : str)
  : (bool * option str) * FileManager :=
  let path := abspath path in
  match _read path with
  | ReadError err => ((false, Some err), self)
  | ReadOk text =>
      ((true, None),
       set_state self (upsert_file (_ctx self) path text)
                      (Dict.set (_store self) path text))
  end.

(** [FileManager.unload] *)
Definition unload (self : FileManager) (path : str) (force : bool)
  : bool * FileManager :=
  let path := abspath path in
  let '(removed, ctx) := remove_file abspath (_ctx self) path force in
  if removed
  then (true, set_state self ctx (Dict.pop (_store self) path))
  else (false, set_state self ctx (_store self)).

(** The loops of [unload_all] and [unload_folder]: [unload] on each
    path, counting the successes. *)
Definition unload_each (self : FileManager) (paths : list str) (force : bool)
  : Z * FileManager :=
  fold_left
    (fun acc p =>
       let '(removed, self') := unload (snd acc) p force in
       (if removed then fst acc + 1 else fst acc, self'))
    paths (0, self).

(** [FileManager.unload_all] *)
Definition unload_all (self : FileManager) (keep_pinned : bool) : Z * FileManager :=
  unload_each self (Dict.keys (_store self)) (negb keep_pinned).

(** [FileManager.unload_folder] *)
Definition unload_folder (self : FileManager) (folder : str) : Z * FileManager :=
  let folder := abspath folder in
  unload_each self
    (List.filter (fun p => startswith p folder) (Dict.keys (_store self))) false.

(** [FileManager.get_pin_status] *)
Definition get_pin_status (self : FileManager) (path : str) : bool :=
  is_pinned abspath (_ctx self) path.

(** [FileManager.get_content] *)
Definition get_content (self : FileManager) (path : str) : option str :=
  Dict.get (_store self) (abspath path).

(** [FileManager.loaded_paths] *)
Definition loaded_paths (self : FileManager) : list str := Dict.keys (_store self).

(** [FileManager.is_loaded] *)
Definition is_loaded (self : FileManager) (path : str) : bool :=
  Dict.contains (_store self) (abspath path).

(** The second loop of [_discover]: the absolute paths not seen yet. *)
Fixpoint unique_from (seen : gset str) (files : list str) : list str :=
  match files with
  | [] => []
  | f :: files' =>
      let af := abspath f in
      if bool_decide (af ∈ seen) then unique_from seen files'
      else af :: unique_from ({[af]} ∪ seen) files'
  end.

(** [FileManager._discover] *)
Definition _discover (self : FileManager) (folder : str) (extensions : list str)
  : list str :=
  let files := flat_map (glob folder) extensions in
  slice_to (unique_from ∅ (sorted files)) (_max_files self).

(** The loop of [load_folder]. *)
Definition load_each (self : FileManager) (paths : list str)
  : (Z * list str) * FileManager :=
  fold_left
    (fun acc path =>
       let '(loaded, errors, self0) := acc in
       match load self0 path with
       | ((true, _), self') => (loaded + 1, errors, self')
       | ((false, err), self') =>
           let shown := match err with Some e => e | None => lit "None" end in
           (loaded, errors ++ [path ++ lit ": " ++ shown], self')
       end)
    paths (0, [], self).

(** [FileManager.load_folder] *)
Definition load_folder (self : FileManager) (folder : str)
    (extensions : option (list str)) : (Z * list str) * FileManager :=
  let ext_list :=
    match extensions with
    | Some (e :: es) => e :: es
    | _ => _extensions self
    end in
  load_each self (_discover self folder ext_list).

(** A call of the command layer on the file manager or, for pins, on its
    context. *)
Inductive op :=
  | Load (path : str)
  | Unload (path : str) (force : bool)
  | UnloadAll (keep_pinned : bool)
  | UnloadFolder (folder : str)
  | Pin (path : str)
  | Unpin (path : str).

Definition step (self : FileManager) (o : op) : FileManager :=
  match o with
  | Load path => snd (load self path)
  | Unload path force => snd (unload self path force)
  | UnloadAll keep_pinned => snd (unload_all self keep_pinned)
  | UnloadFolder folder => snd (unload_folder self folder)
  | Pin path => set_state self (snd (pin_file abspath (_ctx self) path)) (_store self)
  | Unpin path => set_state self (unpin_file abspath (_ctx self) path) (_store self)
  end.

Definition run (self : FileManager) (ops : list op) : FileManager :=
  fold_left step ops self.

(** The paths given to a call become absolute paths without line break. *)
Definition op_ok (o : op) : Prop :=
  match o with
  | Load path | Unload path _ | Pin path | Unpin path => no_line_break (abspath path)
  | UnloadAll _ | UnloadFolder _ => True
  end.

(** The store and the file layer hold the same files: the keys of the
    store are distinct absolute paths without line break, each with the
    entry [upsert_file] stores for its text, and the file layer holds no
    other entry. *)
Definition in_sync (self : FileManager) : Prop :=
  List.NoDup (Dict.keys (_store self))
  /\ (forall k v, In (k, v) (_store self) ->
        abspath k = k /\ no_line_break k
        /\ In (file_entry (_max_file_tokens (_ctx self)) k v)
              (_file_messages (_ctx self)))
  /\ (forall m, In m (_file_messages (_ctx self)) ->
        exists k v, In (k, v) (_store self)
                    /\ m = file_entry (_max_file_tokens (_ctx self)) k v)
  /\ (forall q, q ∈ _pinned_files (_ctx self) -> In q (Dict.keys (_store self))).

End Os.

End Files.

(** * Properties *)

(** ** Slices *)

Section Slices.
Context {A : Type}.
Implicit Types l : list A.

Lemma len_nonneg l : 0 <= len l.
Proof. unfold len. lia. Qed.

Lemma len_app l1 l2 : len (l1 ++ l2) = len l1 + len l2.
Proof. unfold len. rewrite length_app. lia. Qed.

Lemma slice_to_len l n : 0 <= n <= len l -> len (slice_to l n) = n.
Proof.
  intros Hn. unfold slice_to, norm_index, len in *.
  rewrite length_firstn.
  destruct (Z.ltb_spec n 0); lia.
Qed.

Lemma slice_from_neg_len l k : 0 < k <= len l -> len (slice_from l (- k)) = k.
Proof.
  intros Hk. unfold slice_from, norm_index, len in *.
  rewrite length_skipn.
  destruct (Z.ltb_spec (- k) 0); lia.
Qed.

Lemma slice_from_zero l : slice_from l 0 = l.
Proof.
  unfold slice_from, norm_index, len. simpl.
  now rewrite Z.min_l by lia.
Qed.

Lemma slice_to_short l n : len l <= n -> slice_to l n = l.
Proof.
  intros Hn. unfold slice_to, norm_index, len in *.
  apply firstn_all2.
  destruct (Z.ltb_spec n 0); lia.
Qed.

(** For a non-negative bound, [l[:n]] is a prefix of at most [n] items. *)
Lemma slice_to_nonneg l n : 0 <= n -> slice_to l n = firstn (Z.to_nat n) l.
Proof.
  intros Hn. unfold slice_to, norm_index, len.
  destruct (Z.ltb_spec n 0); [lia |].
  destruct (Z.le_gt_cases n (Z.of_nat (length l))).
  - now rewrite Z.min_l.
  - rewrite Z.min_r by lia. rewrite Nat2Z.id.
    rewrite firstn_all. symmetry. apply firstn_all2. lia.
Qed.

End Slices.

Lemma len_TRUNCATED : len TRUNCATED = 40.
Proof. reflexivity. Qed.

(** ** The per-file budget *)

(** Text within the budget is stored as it is. *)
Lemma apply_file_budget_fits mft text :
  len text <= mft * 4 -> apply_file_budget mft text = text.
Proof.
  intros H. unfold apply_file_budget.
  destruct (Z.leb_spec (len text) (mft * 4)); [reflexivity | lia].
Qed.

(** Text over the budget is replaced by head, marker and tail. *)
Lemma apply_file_budget_cut mft text :
  mft * 4 < len text ->
  apply_file_budget mft text =
    slice_to text (mft * 4 / 2) ++ TRUNCATED ++ slice_from text (- (mft * 4 / 2 - 100)).
Proof.
  intros H. unfold apply_file_budget.
  destruct (Z.leb_spec (len text) (mft * 4)); [lia | reflexivity].
Qed.

(** With a budget above 50 tokens the result of a cut has
    [4 * max_file_tokens - 60] characters. *)
Lemma apply_file_budget_cut_len mft text :
  51 <= mft -> mft * 4 < len text ->
  len (apply_file_budget mft text) = mft * 4 - 60.
Proof.
  intros Hm Hlen. rewrite apply_file_budget_cut by assumption.
  replace (mft * 4 / 2) with (2 * mft)
    by (apply (Z.div_unique_exact (mft * 4) 2); lia).
  rewrite !len_app, len_TRUNCATED.
  rewrite slice_to_len by lia.
  rewrite slice_from_neg_len by lia. lia.
Qed.

(** With a budget above 50 tokens, the head+tail rule is idempotent. *)
Lemma apply_file_budget_idempotent_above_50 mft text :
  51 <= mft ->
  apply_file_budget mft (apply_file_budget mft text) = apply_file_budget mft text.
Proof.
  intros Hm.
  destruct (Z.le_gt_cases (len text) (mft * 4)) as [Hfit | Hcut].
  - rewrite (apply_file_budget_fits mft text Hfit).
    exact (apply_file_budget_fits mft text Hfit).
  - apply apply_file_budget_fits.
    rewrite apply_file_budget_cut_len by lia. lia.
Qed.

(** ** Prefixes and substrings *)

Lemma startswith_refl_app (p s : str) : startswith (p ++ s) p = true.
Proof.
  induction p as [| c p IH]; simpl; [reflexivity |].
  now rewrite Ascii.eqb_refl.
Qed.

Lemma startswith_app_same (t s r : str) :
  startswith (t ++ s) (t ++ r) = startswith s r.
Proof.
  induction t as [| c t IH]; simpl; [reflexivity |].
  now rewrite Ascii.eqb_refl.
Qed.

Lemma contains_app_r (a s sub : str) :
  contains s sub = true -> contains (a ++ s) sub = true.
Proof.
  intros H. induction a as [| c a IH]; simpl; [assumption |].
  rewrite IH. apply orb_true_r.
Qed.

Lemma contains_infix (a sub b : str) : contains (a ++ sub ++ b) sub = true.
Proof.
  apply contains_app_r.
  pose proof (startswith_refl_app sub b) as H.
  destruct (sub ++ b); simpl; now rewrite H.
Qed.

(** A path without line break is the path of an entry only if it is
    the path the entry was stored under. *)
Lemma startswith_line (p q c : str) :
  no_line_break p -> no_line_break q ->
  startswith (p ++ [nl] ++ c) (q ++ [nl]) = true -> p = q.
Proof.
  unfold no_line_break. revert q.
  induction p as [| a p IH]; intros [| b q] Hp Hq H;
    cbn [startswith app] in H.
  - reflexivity.
  - destruct (Ascii.eqb_spec b nl) as [-> |]; [| discriminate].
    exfalso. apply Hq. now left.
  - destruct (Ascii.eqb_spec nl a) as [<- |]; [| discriminate].
    exfalso. apply Hp. now left.
  - destruct (Ascii.eqb_spec b a) as [-> |]; [| discriminate].
    f_equal. apply IH; [| | assumption].
    + intros Hin. apply Hp. now right.
    + intros Hin. apply Hq. now right.
Qed.

Lemma is_entry_file_entry mft path text :
  is_entry path (file_entry mft path text) = true.
Proof.
  unfold is_entry, file_entry. cbn [content].
  rewrite app_assoc. apply startswith_refl_app.
Qed.

Lemma is_entry_file_entry_inv mft p q text :
  no_line_break p -> no_line_break q ->
  is_entry q (file_entry mft p text) = true -> p = q.
Proof.
  intros Hp Hq H. unfold is_entry, file_entry, file_tag in H. cbn [content] in H.
  rewrite <- !app_assoc in H. rewrite startswith_app_same in H.
  exact (startswith_line p q _ Hp Hq H).
Qed.

(** ** Token sums *)

Lemma token_estimate_pos m : 1 <= token_estimate m.
Proof. unfold token_estimate. lia. Qed.

Lemma sum_tokens_app a b : sum_tokens (a ++ b) = sum_tokens a + sum_tokens b.
Proof. induction a as [| m a IH]; simpl; lia. Qed.

Lemma sum_tokens_nonneg a : 0 <= sum_tokens a.
Proof.
  induction a as [| m a IH]; simpl; [lia |].
  pose proof (token_estimate_pos m). lia.
Qed.

Lemma to_dict_content m : to_dict m !! lit "content" = Some (content m).
Proof. unfold to_dict. apply lookup_insert_eq. Qed.

Lemma to_dict_role m : to_dict m !! lit "role" = Some (role m).
Proof.
  unfold to_dict. rewrite lookup_insert_ne by discriminate.
  apply lookup_insert_eq.
Qed.

Lemma dict_tokens_to_dict m : dict_tokens (to_dict m) = token_estimate m.
Proof. unfold dict_tokens. now rewrite to_dict_content. Qed.

Lemma dicts_tokens_to_dict ms : dicts_tokens (map to_dict ms) = sum_tokens ms.
Proof.
  induction ms as [| m ms IH]; simpl; [reflexivity |].
  now rewrite dict_tokens_to_dict, IH.
Qed.

(** The estimate of the list [build_messages] returns. *)
Lemma build_messages_tokens self e :
  dicts_tokens (build_messages self e) =
    token_estimate (_system self)
    + sum_tokens (built_files self (ephemeral_of e)
                    (drop_oldest self (ephemeral_of e) (_convo_messages self)))
    + sum_tokens (drop_oldest self (ephemeral_of e) (_convo_messages self))
    + sum_tokens (ephemeral_of e).
Proof.
  unfold build_messages. rewrite dicts_tokens_to_dict.
  rewrite !sum_tokens_app. simpl. lia.
Qed.

(** When the loop of [build_messages] ends, the total is within the
    budget or no conversation message is left. *)
Lemma drop_oldest_exit self eph convo :
  total_tokens self eph (drop_oldest self eph convo) <= _max_total self
  \/ drop_oldest self eph convo = [].
Proof.
  induction convo as [| m convo IH]; simpl; [now right |].
  destruct (Z.gtb_spec (total_tokens self eph (m :: convo)) (_max_total self)).
  - exact IH.
  - now left.
Qed.

(** The loop keeps a suffix of the conversation: the oldest messages
    are the ones that go. *)
Lemma drop_oldest_suffix self eph convo :
  exists n, drop_oldest self eph convo = skipn n convo.
Proof.
  induction convo as [| m convo [n IH]]; simpl.
  - now exists 0%nat.
  - destruct (_ >? _).
    + now exists (S n).
    + now exists 0%nat.
Qed.

(** ** The global budget of [build_messages] *)




(** ** [upsert_file] and the order of the file layer *)

Lemma without_entry_idempotent path msgs :
  without_entry path (without_entry path msgs) = without_entry path msgs.
Proof.
  unfold without_entry. induction msgs as [| m msgs IH]; simpl; [reflexivity |].
  destruct (is_entry path m) eqn:E; simpl; [exact IH |].
  rewrite E. simpl. now rewrite IH.
Qed.

Lemma filter_without_entry path msgs :
  List.filter (is_entry path) (without_entry path msgs) = [].
Proof.
  unfold without_entry. induction msgs as [| m msgs IH]; simpl; [reflexivity |].
  destruct (is_entry path m) eqn:E; simpl; [exact IH |].
  now rewrite E.
Qed.

Lemma upsert_file_files self path text :
  _file_messages (upsert_file self path text) =
    without_entry path (_file_messages self)
    ++ [file_entry (_max_file_tokens self) path text].
Proof. reflexivity. Qed.

Lemma upsert_file_max_file_tokens self path text :
  _max_file_tokens (upsert_file self path text) = _max_file_tokens self.
Proof. reflexivity. Qed.

(** C3, as stated, fails: the entry of [/a] is at position 0, and after
    [upsert_file] position 0 holds the entry of [/b]. *)
Lemma upsert_file_not_in_place :
  ~ (forall self path text k m,
        nth_error (_file_messages self) k = Some m ->
        is_entry path m = true ->
        nth_error (_file_messages (upsert_file self path text)) k
          = Some (file_entry (_max_file_tokens self) path text)).
Proof.
  intros H.
  specialize (H two_files (lit "/a") (lit "3") 0%nat
                (file_entry 1500 (lit "/a") (lit "1")) eq_refl eq_refl).
  vm_compute in H. discriminate.
Qed.

(** C3 (amended): when the file layer holds an entry for [path],
    [upsert_file] removes it and appends the new entry at the end of the
    layer: the new entry is the last one and the only one for [path],
    and the other entries are the same, in the same order. *)
Theorem upsert_file_moves_to_end self path text k m :
  nth_error (_file_messages self) k = Some m ->
  is_entry path m = true ->
  let entry := file_entry (_max_file_tokens self) path text in
  let files' := _file_messages (upsert_file self path text) in
  last files' = Some entry
  /\ nth_error files' (length files' - 1) = Some entry
  /\ List.filter (is_entry path) files' = [entry]
  /\ without_entry path files' = without_entry path (_file_messages self)
  /\ (length files' <= length (_file_messages self))%nat.
Proof.
  intros Hk Hm entry files'.
  subst files'. rewrite upsert_file_files. fold entry.
  assert (He : is_entry path entry = true) by apply is_entry_file_entry.
  repeat split.
  - apply last_snoc.
  - rewrite length_app. simpl.
    replace (length (without_entry path (_file_messages self)) + 1 - 1)%nat
      with (length (without_entry path (_file_messages self))) by lia.
    rewrite nth_error_app2 by lia. now rewrite Nat.sub_diag.
  - rewrite List.filter_app, filter_without_entry. simpl. now rewrite He.
  - unfold without_entry at 1. rewrite List.filter_app. simpl. rewrite He. simpl.
    rewrite app_nil_r. apply without_entry_idempotent.
  - rewrite length_app. simpl.
    apply nth_error_split in Hk as (l1 & l2 & Heq & _).
    rewrite Heq. unfold without_entry.
    rewrite List.filter_app. simpl. rewrite Hm. simpl.
    rewrite !length_app. simpl.
    pose proof (List.filter_length_le (fun m => negb (is_entry path m)) l1).
    pose proof (List.filter_length_le (fun m => negb (is_entry path m)) l2).
    lia.
Qed.

Lemma upsert_file_moves_to_end_witness :
  let files' := _file_messages (upsert_file two_files (lit "/a") (lit "3")) in
  files' = [file_entry 1500 (lit "/b") (lit "2"); file_entry 1500 (lit "/a") (lit "3")]
  /\ nth_error files' (length files' - 1) = Some (file_entry 1500 (lit "/a") (lit "3")).
Proof.
  split; [reflexivity |].
  exact (proj1 (proj2 (upsert_file_moves_to_end two_files (lit "/a") (lit "3") 0%nat
                  (file_entry 1500 (lit "/a") (lit "1")) eq_refl eq_refl))).
Defined.

(** ** Truncation markers *)

(** A cut made by the per-file budget is marked: when the stored text
    differs from the given one, it holds the marker. *)
Lemma apply_file_budget_marked mft text :
  apply_file_budget mft text <> text ->
  contains (apply_file_budget mft text) TRUNCATED = true.
Proof.
  intros Hcut. unfold apply_file_budget in *.
  destruct (len text <=? mft * 4); [congruence |].
  apply contains_infix.
Qed.

(** The emergency re-truncation of [build_messages] first cuts the entry
    to [2 * max_file_tokens] characters, which is within the budget of
    [4 * max_file_tokens] characters: [_apply_file_budget] then returns
    its argument, and nothing marks the cut. *)
Lemma shrink_file_prefix self m :
  0 <= _max_file_tokens self ->
  shrink_file self m =
    mkMessage (role m) (firstn (Z.to_nat (_max_file_tokens self * 2)) (content m)).
Proof.
  intros Hm. unfold shrink_file, _apply_file_budget.
  rewrite slice_to_nonneg by lia.
  rewrite apply_file_budget_fits; [reflexivity |].
  unfold len. rewrite length_firstn. lia.
Qed.

(** C4: at [crowded_manager] the stored entry was cut at [upsert_file]
    and holds the marker; [build_messages] drains the conversation and
    re-truncates the entry to its first 102 characters, and the entry it
    returns holds no marker. *)
Theorem build_messages_unmarked_cut :
  map (fun m => contains (content m) TRUNCATED) (_file_messages crowded_manager)
    = [true]
  /\ build_messages crowded_manager None =
       map to_dict
         [ _system crowded_manager;
           mkMessage (lit "user") (file_tag (lit "/a") ++ [nl] ++ rep 84 "x") ]
  /\ contains (file_tag (lit "/a") ++ [nl] ++ rep 84 "x") TRUNCATED = false.
Proof.
  split; [vm_compute; reflexivity |].
  split; [| vm_compute; reflexivity].
  unfold build_messages. f_equal.
Qed.

(** ** Truncating twice *)

(** C5: under a per-file budget of 50 tokens, a text of 201 characters
    is truncated to its first 100 characters, the marker and the whole
    text again; truncating the result once more gives a longer text. *)
Theorem apply_file_budget_twice_at_50 :
  let text := rep 201 "x" in
  let once := apply_file_budget 50 text in
  let twice := apply_file_budget 50 once in
  once = rep 100 "x" ++ TRUNCATED ++ text
  /\ twice = rep 100 "x" ++ TRUNCATED ++ once
  /\ len once = 341 /\ len twice = 481
  /\ twice <> once.
Proof.
  cbv zeta.
  assert (H1 : apply_file_budget 50 (rep 201 "x")
               = rep 100 "x" ++ TRUNCATED ++ rep 201 "x") by (vm_compute; reflexivity).
  assert (H2 : apply_file_budget 50 (apply_file_budget 50 (rep 201 "x"))
               = rep 100 "x" ++ TRUNCATED ++ apply_file_budget 50 (rep 201 "x"))
    by (vm_compute; reflexivity).
  assert (L1 : len (apply_file_budget 50 (rep 201 "x")) = 341)
    by (vm_compute; reflexivity).
  assert (L2 : len (apply_file_budget 50 (apply_file_budget 50 (rep 201 "x"))) = 481)
    by (vm_compute; reflexivity).
  repeat split; try assumption.
  intros Heq. rewrite Heq in L2. rewrite L1 in L2. discriminate.
Qed.

(** ** The conversation window *)

(** C6: with [max_convo = 0], the conversation layer holds one message
    after one [add_user], which is more than the configured maximum:
    [_trim_convo] takes the slice [[-0:]], which is the whole list. *)
Theorem add_user_at_max_convo_0 :
  let self := add_user (init [] 4500 1500 0) (lit "a") in
  _convo_messages self = [mkMessage (lit "user") (lit "a")]
  /\ len (_convo_messages self) = 1
  /\ _max_convo self = 0.
Proof. repeat split. Qed.

Lemma lastn_all {A} n (l : list A) : (length l <= n)%nat -> lastn n l = l.
Proof.
  intros H. unfold lastn. now replace (length l - n)%nat with 0%nat by lia.
Qed.

Lemma length_lastn {A} n (l : list A) : length (lastn n l) = Nat.min n (length l).
Proof. unfold lastn. rewrite length_skipn. lia. Qed.

Lemma lastn_app_lastn {A} n (a b : list A) :
  lastn n (lastn n a ++ b) = lastn n (a ++ b).
Proof.
  destruct (Nat.le_gt_cases (length a) n) as [Hle | Hgt].
  - now rewrite (lastn_all n a Hle).
  - unfold lastn. rewrite !length_app, length_skipn.
    rewrite !skipn_app, length_skipn, skipn_skipn.
    f_equal; f_equal; lia.
Qed.

(** With a maximum of at least one message, [_trim_convo] keeps the
    most recent [max_convo] messages. *)
Lemma trim_convo_lastn self :
  1 <= _max_convo self ->
  _convo_messages (_trim_convo self)
    = lastn (Z.to_nat (_max_convo self)) (_convo_messages self).
Proof.
  intros Hmax. unfold _trim_convo.
  destruct (Z.gtb_spec (len (_convo_messages self)) (_max_convo self)) as [Hgt | Hle].
  - simpl. unfold slice_from, norm_index, lastn, len in *.
    destruct (Z.ltb_spec (- _max_convo self) 0); [| lia].
    f_equal. lia.
  - rewrite lastn_all; [reflexivity |]. unfold len in Hle. lia.
Qed.

Lemma trim_convo_max_convo self : _max_convo (_trim_convo self) = _max_convo self.
Proof. unfold _trim_convo. now destruct (_ >? _). Qed.

Lemma append_turn_max_convo self t :
  _max_convo (append_turn self t) = _max_convo self.
Proof. destruct t; simpl; unfold add_user, add_assistant; now rewrite trim_convo_max_convo. Qed.

Lemma append_turn_lastn self t :
  1 <= _max_convo self ->
  _convo_messages (append_turn self t)
    = lastn (Z.to_nat (_max_convo self)) (_convo_messages self ++ [turn_message t]).
Proof.
  intros Hmax.
  destruct t; simpl; unfold add_user, add_assistant;
    now rewrite trim_convo_lastn.
Qed.

(** With a maximum of at least one message, the conversation layer after
    a sequence of appends holds the most recent [max_convo] messages, in
    the order they were appended. *)
Lemma append_turns_lastn ts : forall self,
  1 <= _max_convo self ->
  len (_convo_messages self) <= _max_convo self ->
  _convo_messages (append_turns self ts)
    = lastn (Z.to_nat (_max_convo self))
        (_convo_messages self ++ map turn_message ts).
Proof.
  induction ts as [| t ts IH]; intros self Hmax Hlen; simpl.
  - rewrite app_nil_r. rewrite lastn_all; [reflexivity |]. unfold len in Hlen. lia.
  - unfold append_turns in *. rewrite IH.
    + rewrite append_turn_max_convo, append_turn_lastn by assumption.
      rewrite lastn_app_lastn. now rewrite <- app_assoc.
    + now rewrite append_turn_max_convo.
    + rewrite append_turn_max_convo, append_turn_lastn by assumption.
      unfold len. rewrite length_lastn. lia.
Qed.

Lemma append_turns_bounded self ts :
  1 <= _max_convo self ->
  _convo_messages self = [] ->
  _max_convo self < len ts ->
  len (_convo_messages (append_turns self ts)) = _max_convo self
  /\ _convo_messages (append_turns self ts)
       = lastn (Z.to_nat (_max_convo self)) (map turn_message ts).
Proof.
  intros Hmax Hnil Hlen.
  rewrite append_turns_lastn by (rewrite ?Hnil; unfold len; simpl; lia).
  rewrite Hnil. simpl. split; [| reflexivity].
  unfold len in *. rewrite length_lastn, length_map. lia.
Qed.

(** With a maximum of zero, [_trim_convo] changes nothing: the layer
    keeps every appended message. *)
Lemma trim_convo_at_max_convo_0 self :
  _max_convo self = 0 -> _trim_convo self = self.
Proof.
  intros Hmax. unfold _trim_convo. rewrite Hmax.
  destruct (len (_convo_messages self) >? 0); [| reflexivity].
  change (- 0) with 0. rewrite slice_from_zero. now destruct self.
Qed.

Lemma append_turns_at_max_convo_0 ts : forall self,
  _max_convo self = 0 ->
  _convo_messages (append_turns self ts)
    = _convo_messages self ++ map turn_message ts.
Proof.
  induction ts as [| t ts IH]; intros self Hmax; simpl.
  - now rewrite app_nil_r.
  - unfold append_turns in *.
    assert (Hstep : append_turn self t
                    = set_convo self (_convo_messages self ++ [turn_message t])).
    { destruct t; simpl; unfold add_user, add_assistant;
        now apply trim_convo_at_max_convo_0. }
    rewrite IH by now rewrite Hstep.
    rewrite Hstep. simpl. now rewrite <- app_assoc.
Qed.

(** ** [remove_file] and pins *)

(** C7: [remove_file] on a pinned path without [force] returns [False]
    and changes nothing; with [force] it returns [True], leaves no entry
    for the path and unpins it; without [force], on a path that is
    neither pinned nor loaded, it returns [True]. *)
Theorem remove_file_pinned_forced_absent (abspath : str -> str) self path :
  (is_pinned abspath self path = true ->
     remove_file abspath self path false = (false, self))
  /\ (let '(removed, self') := remove_file abspath self path true in
      removed = true
      /\ entries_for (abspath path) self' = []
      /\ _file_messages self' = without_entry (abspath path) (_file_messages self)
      /\ (abspath path ∉ _pinned_files self')
      /\ is_pinned abspath self' path = false)
  /\ (is_pinned abspath self path = false ->
      entries_for (abspath path) self = [] ->
      fst (remove_file abspath self path false) = true).
Proof.
  unfold remove_file, is_pinned. split; [| split].
  - intros Hpin. now rewrite Hpin.
  - rewrite andb_false_r. cbn [set_files set_pinned _file_messages _pinned_files].
    assert (Hout : abspath path ∉ _pinned_files self ∖ {[abspath path]}).
    { apply not_elem_of_difference. right. now apply elem_of_singleton. }
    repeat split.
    + unfold entries_for. apply filter_without_entry.
    + exact Hout.
    + now apply bool_decide_eq_false.
  - intros Hpin _. now rewrite Hpin.
Qed.

Lemma remove_file_pinned_forced_absent_witness :
  let self := snd (pin_file (fun p => p)
                     (upsert_file (init [] 4500 1500 40) (lit "/a") (lit "1"))
                     (lit "/a")) in
  is_pinned (fun p => p) self (lit "/a") = true
  /\ remove_file (fun p => p) self (lit "/a") false = (false, self).
Proof.
  intros self.
  assert (Hpin : is_pinned (fun p => p) self (lit "/a") = true).
  { unfold is_pinned. apply bool_decide_eq_true. subst self. simpl. set_solver. }
  split; [exact Hpin |].
  exact (proj1 (remove_file_pinned_forced_absent (fun p => p) self (lit "/a")) Hpin).
Defined.

(** ** One entry per path *)

Lemma latest_snoc ops p text q :
  latest (ops ++ [(p, text)]) q
    = if decide (p = q) then Some text else latest ops q.
Proof.
  induction ops as [| [a b] ops IH]; simpl.
  - reflexivity.
  - rewrite IH. destruct (decide (p = q)); reflexivity.
Qed.

Lemma latest_in ops q text :
  latest ops q = Some text -> In q (map fst ops).
Proof.
  induction ops as [| [a b] ops IH]; simpl; [discriminate |].
  destruct (latest ops q).
  - intros H. right. now apply IH.
  - destruct (decide (a = q)); [now left | discriminate].
Qed.

Lemma upserts_snoc self ops p text :
  upserts self (ops ++ [(p, text)]) = upsert_file (upserts self ops) p text.
Proof. unfold upserts. now rewrite fold_left_app. Qed.

Lemma upserts_max_file_tokens ops : forall self,
  _max_file_tokens (upserts self ops) = _max_file_tokens self.
Proof.
  induction ops as [| op ops IH]; intros self; simpl; [reflexivity |].
  unfold upserts in *. simpl. now rewrite IH.
Qed.

Lemma filter_filter_length {A} (f g : A -> bool) l :
  (length (List.filter f (List.filter g l)) <= length (List.filter f l))%nat.
Proof.
  induction l as [| x l IH]; simpl; [lia |].
  destruct (g x), (f x) eqn:E; simpl; rewrite ?E; simpl; lia.
Qed.

(** After a sequence of [upsert_file] calls on paths without line break,
    every entry is the one stored by the latest call for its path, no
    path has two entries, and every path that was loaded has its entry. *)
Lemma upserts_invariant self ops :
  _file_messages self = [] ->
  Forall (fun op => no_line_break (fst op)) ops ->
  let files := _file_messages (upserts self ops) in
  let mft := _max_file_tokens self in
  (forall m, In m files ->
     exists q text, no_line_break q /\ latest ops q = Some text
                    /\ m = file_entry mft q text)
  /\ (forall q, no_line_break q ->
        (length (List.filter (is_entry q) files) <= 1)%nat)
  /\ (forall q text, latest ops q = Some text -> In (file_entry mft q text) files).
Proof.
  intros Hnil. induction ops as [| [p x] ops IH] using rev_ind; intros Hops files mft.
  - subst files. simpl. rewrite Hnil. repeat split.
    + intros m [].
    + intros q _. simpl. lia.
    + intros q text H. discriminate.
  - apply Forall_app in Hops as [Hops Hp].
    apply Forall_inv in Hp. simpl in Hp.
    destruct (IH Hops) as (Hform & Huniq & Hall). clear IH.
    subst files. rewrite upserts_snoc, upsert_file_files, upserts_max_file_tokens.
    fold mft.
    repeat split.
    + intros m Hin. apply in_app_or in Hin as [Hin | [<- | []]].
      * apply filter_In in Hin as [Hin Hne].
        destruct (Hform m Hin) as (q & text & Hq & Hlatest & ->).
        exists q, text. repeat split; [assumption |].
        rewrite latest_snoc.
        destruct (decide (p = q)) as [-> |]; [| assumption].
        rewrite is_entry_file_entry in Hne. discriminate.
      * exists p, x. repeat split; [assumption |].
        rewrite latest_snoc. now destruct (decide (p = p)).
    + intros q Hq. rewrite List.filter_app, length_app. simpl.
      destruct (is_entry q (file_entry mft p x)) eqn:E.
      * apply is_entry_file_entry_inv in E as <-; [| assumption | assumption].
        rewrite filter_without_entry. simpl. lia.
      * simpl. unfold without_entry.
        pose proof (filter_filter_length (is_entry q)
                      (fun m => negb (is_entry p m))
                      (_file_messages (upserts self ops))).
        specialize (Huniq q Hq). lia.
    + intros q text. rewrite latest_snoc.
      destruct (decide (p = q)) as [<- | Hne].
      * intros [= <-]. apply in_or_app. right. now left.
      * intros Hlatest. apply in_or_app. left.
        apply filter_In. split; [now apply Hall |].
        destruct (is_entry p (file_entry mft q text)) eqn:E; [| reflexivity].
        exfalso. apply Hne. symmetry.
        apply is_entry_file_entry_inv in E; [assumption | | assumption].
        apply latest_in in Hlatest.
        apply in_map_iff in Hlatest as (op & <- & Hin).
        exact (proj1 (List.Forall_forall _ _) Hops op Hin).
Qed.

(** C8, as stated, fails: after [upsert_file] for the path [a] and for
    a path made of [a], a line break and [x], the file layer holds two
    entries that the manager takes for entries of [a]. *)
Lemma upserts_two_entries :
  ~ (forall self ops path,
        _file_messages self = [] ->
        (length (entries_for path (upserts self ops)) <= 1)%nat
        /\ (forall text, latest ops path = Some text ->
              entries_for path (upserts self ops)
                = [file_entry (_max_file_tokens self) path text])).
Proof.
  intros H.
  destruct (H (init [] 4500 1500 40)
              [(lit "a", lit "x"); (lit "a" ++ [nl] ++ lit "x", lit "y")]
              (lit "a") eq_refl) as [Hlen _].
  vm_compute in Hlen. lia.
Qed.

(** C8 (amended): after any sequence of [upsert_file] calls on paths
    that hold no line break, the file layer holds at most one entry per
    such path, and the entry of a path is the one stored by the latest
    call for it: its tag and the truncated text of that call. *)
Theorem upserts_unique_latest self ops path :
  _file_messages self = [] ->
  Forall (fun op => no_line_break (fst op)) ops ->
  no_line_break path ->
  (length (entries_for path (upserts self ops)) <= 1)%nat
  /\ (forall text, latest ops path = Some text ->
        entries_for path (upserts self ops)
          = [file_entry (_max_file_tokens self) path text]).
Proof.
  intros Hnil Hops Hpath.
  destruct (upserts_invariant self ops Hnil Hops) as (_ & Huniq & Hall).
  split; [now apply Huniq |].
  intros text Hlatest. unfold entries_for.
  specialize (Huniq path Hpath). specialize (Hall path text Hlatest).
  assert (Hin : In (file_entry (_max_file_tokens self) path text)
                  (List.filter (is_entry path) (_file_messages (upserts self ops)))).
  { apply filter_In. split; [assumption | apply is_entry_file_entry]. }
  destruct (List.filter (is_entry path) (_file_messages (upserts self ops)))
    as [| m [| m' rest]]; simpl in *.
  - contradiction.
  - destruct Hin as [-> | []]. reflexivity.
  - lia.
Qed.

Lemma upserts_unique_latest_witness :
  let self := init [] 4500 1500 40 in
  let ops := [(lit "/a", lit "1"); (lit "/b", lit "2"); (lit "/a", lit "3")] in
  entries_for (lit "/a") (upserts self ops) = [file_entry 1500 (lit "/a") (lit "3")].
Proof.
  intros self ops.
  assert (Hline : forall c d : ascii, c <> nl -> d <> nl -> no_line_break [c; d]).
  { intros c d Hc Hd [H | [H | []]]; congruence. }
  refine (proj2 (upserts_unique_latest self ops (lit "/a") eq_refl _ _) (lit "3") eq_refl).
  - repeat constructor; apply Hline; discriminate.
  - apply Hline; discriminate.
Defined.

(** *** What [file_paths] lists *)

Lemma first_line_app (a c : str) :
  no_line_break a -> first_line (a ++ nl :: c) = a.
Proof.
  unfold no_line_break. induction a as [| x a IH]; intros Ha; cbn [app first_line].
  - now rewrite Ascii.eqb_refl.
  - destruct (Ascii.eqb_spec x nl) as [-> | _].
    + exfalso. apply Ha. now left.
    + f_equal. apply IH. intros Hin. apply Ha. now right.
Qed.

Lemma file_tag_no_line_break path :
  no_line_break path -> no_line_break (file_tag path).
Proof.
  unfold no_line_break, file_tag. intros Hp Hin.
  apply in_app_or in Hin as [Hin | Hin]; [| contradiction].
  repeat (destruct Hin as [Hin | Hin]; [discriminate Hin |]). exact Hin.
Qed.

Lemma entry_paths_file_entry mft path text :
  no_line_break path -> entry_paths (file_entry mft path text) = [path].
Proof.
  intros Hp. unfold entry_paths, file_entry. cbn [content].
  change ([nl] ++ apply_file_budget mft text) with (nl :: apply_file_budget mft text).
  rewrite first_line_app by now apply file_tag_no_line_break.
  unfold file_tag. rewrite startswith_refl_app.
  f_equal. unfold slice_from, norm_index. rewrite len_app.
  pose proof (len_nonneg path).
  change (len (lit "[PROJECT_FILE] ")) with 15 in *.
  destruct (Z.ltb_spec 15 0); [lia |].
  rewrite Z.min_l by lia. reflexivity.
Qed.

Lemma file_paths_entry_paths self :
  file_paths self = flat_map entry_paths (_file_messages self).
Proof. reflexivity. Qed.

(** After a sequence of [upsert_file] calls on paths without line break,
    [file_paths] lists every loaded path, and each of them once. *)
Lemma upserts_file_paths self ops :
  _file_messages self = [] ->
  Forall (fun op => no_line_break (fst op)) ops ->
  List.NoDup (file_paths (upserts self ops))
  /\ (forall q, In q (file_paths (upserts self ops)) <-> In q (map fst ops)).
Proof.
  intros Hnil Hops.
  destruct (upserts_invariant self ops Hnil Hops) as (Hform & Huniq & Hall).
  rewrite file_paths_entry_paths.
  set (files := _file_messages (upserts self ops)) in *.
  set (mft := _max_file_tokens self) in *.
  split.
  - clear Hall. induction files as [| m files IH]; simpl; [constructor |].
    destruct (Hform m (or_introl eq_refl)) as (q & text & Hq & _ & ->).
    rewrite entry_paths_file_entry by assumption. simpl.
    assert (Hrest : forall q', no_line_break q' ->
              (length (List.filter (is_entry q') files) <= 1)%nat).
    { intros q' Hq'. specialize (Huniq q' Hq'). simpl in Huniq.
      destruct (is_entry q' (file_entry mft q text)); simpl in Huniq; lia. }
    constructor.
    + intros Hin. apply in_flat_map in Hin as (m' & Hm' & Hq').
      destruct (Hform m' (or_intror Hm')) as (q' & text' & Hnl' & _ & ->).
      rewrite entry_paths_file_entry in Hq' by assumption.
      destruct Hq' as [-> | []].
      specialize (Huniq q Hq). simpl in Huniq.
      rewrite is_entry_file_entry in Huniq. simpl in Huniq.
      apply in_split in Hm' as (l1 & l2 & ->).
      rewrite List.filter_app in Huniq. simpl in Huniq.
      rewrite is_entry_file_entry in Huniq.
      rewrite length_app in Huniq. simpl in Huniq. lia.
    + apply IH; [| assumption].
      intros m' Hm'. apply Hform. now right.
  - intros q. split.
    + intros Hin. apply in_flat_map in Hin as (m & Hm & Hq).
      destruct (Hform m Hm) as (q' & text & Hnl & Hlatest & ->).
      rewrite entry_paths_file_entry in Hq by assumption.
      destruct Hq as [<- | []]. now apply latest_in in Hlatest.
    + intros Hin.
      assert (Hsome : exists text, latest ops q = Some text).
      { clear -Hin. induction ops as [| [a b] ops IH]; simpl in *; [contradiction |].
        destruct (latest ops q) eqn:E; [now eexists |].
        destruct Hin as [-> | Hin].
        - exists b. now destruct (decide (q = q)).
        - destruct (IH Hin) as [text Htext]. discriminate. }
      destruct Hsome as [text Hlatest].
      apply in_flat_map. exists (file_entry mft q text).
      split; [now apply Hall |].
      rewrite entry_paths_file_entry; [now left |].
      apply latest_in in Hlatest.
      apply in_map_iff in Hlatest as (op & <- & Hop).
      exact (proj1 (List.Forall_forall _ _) Hops op Hop).
Qed.

(** ** Retries of [NvidiaProvider.stream] *)

Section Retries.

Context {float : Type} (float_mul : float -> Z -> float).
Variable self : NvidiaProvider float.
Variable create : nat -> attempt.

Lemma yields_app (a b : list (event float)) : yields (a ++ b) = yields a ++ yields b.
Proof. unfold yields. apply flat_map_app. Qed.

Lemma waits_app (a b : list (event float)) : waits (a ++ b) = waits a ++ waits b.
Proof. unfold waits. apply flat_map_app. Qed.

Lemma requests_app (a b : list (event float)) :
  requests (a ++ b) = requests a ++ requests b.
Proof. unfold requests. apply flat_map_app. Qed.

Lemma yields_Yield cs : yields (map (@Yield float) cs) = cs.
Proof. induction cs as [| c cs IH]; simpl; [reflexivity | now rewrite IH]. Qed.

Lemma waits_Yield cs : waits (map (@Yield float) cs) = [].
Proof. induction cs as [| c cs IH]; simpl; [reflexivity | exact IH]. Qed.

Lemma requests_Yield cs : requests (map (@Yield float) cs) = [].
Proof. induction cs as [| c cs IH]; simpl; [reflexivity | exact IH]. Qed.

(** A run of [k] attempts that fail transiently: each is requested
    once, each is followed by its backoff wait, and the loop goes on
    with the iterations that are left. *)
Lemma stream_from_transient k : forall a remaining last_exc,
  (forall i, (a <= i < a + k)%nat -> fails_transiently create i) ->
  exists pre last',
    stream_from float_mul self create a (k + remaining) last_exc
      = (pre ++ fst (stream_from float_mul self create (a + k) remaining last'),
         snd (stream_from float_mul self create (a + k) remaining last'))
    /\ requests pre = seq a k
    /\ waits pre = map (backoff float_mul self) (seq a k).
Proof.
  induction k as [| k IH]; intros a remaining last_exc Hfail.
  - exists [], last_exc. rewrite Nat.add_0_r. simpl.
    now destruct (stream_from float_mul self create a remaining last_exc).
  - destruct (Hfail a ltac:(lia)) as (e & Hend & Htrans).
    destruct (IH (S a) remaining (Some e)) as (pre & last' & Heq & Hreq & Hwait).
    { intros i Hi. apply Hfail. lia. }
    replace (a + S k)%nat with (S a + k)%nat by lia.
    exists (Request a :: map Yield (_parse_stream (attempt_chunks (create a)))
              ++ [RetryNotice (Z.of_nat a + 1) (_max_retries self) e (backoff float_mul self a);
                  Sleep (backoff float_mul self a)] ++ pre), last'.
    cbn [Nat.add stream_from]. rewrite Hend, Htrans, Heq.
    split; [| split].
    + unfold backoff. cbn [fst snd app]. f_equal.
      rewrite <- app_assoc. reflexivity.
    + change (Request a :: ?l) with ([Request a] ++ l).
      rewrite !requests_app, requests_Yield, Hreq. reflexivity.
    + change (Request a :: ?l) with ([Request a] ++ l).
      rewrite !waits_app, waits_Yield, Hwait. reflexivity.
Qed.

End Retries.



(** ** The end of [SessionManager.send] *)

(** The accumulated text is the concatenation of the content of the
    fragments the loop was given. *)
Lemma collect_concat cs : collect cs = concat (map chunk_content cs).
Proof.
  unfold collect. induction cs as [| c cs IH]; simpl; [reflexivity |].
  rewrite IH. now destruct (chunk_content c).
Qed.

Lemma lastn_snoc_last {A} n (l : list A) x :
  (1 <= n)%nat -> last (lastn n (l ++ [x])) = Some x.
Proof.
  intros Hn. unfold lastn. rewrite length_app, skipn_app. simpl length.
  replace (length l + 1 - n - length l)%nat with 0%nat by lia.
  simpl. apply last_snoc.
Qed.

(** With a maximum of at least one message, the turn [add_assistant]
    appends is the last message of the conversation layer. *)
Lemma add_assistant_last self text :
  1 <= _max_convo self ->
  last (_convo_messages (add_assistant self text))
    = Some (mkMessage (lit "assistant") text).
Proof.
  intros Hmax.
  change (add_assistant self text) with (append_turn self (AssistantTurn text)).
  rewrite (append_turn_lastn self (AssistantTurn text) Hmax).
  apply lastn_snoc_last. lia.
Qed.



(** ** [build_messages] and the stored layers *)

Lemma extends_refl h : Store.extends h h.
Proof. now intros l _. Qed.

Lemma extends_dom h h' l : Store.extends h h' -> l ∈ dom h -> l ∈ dom h'.
Proof.
  intros Hext Hl. apply elem_of_dom. rewrite (Hext l Hl). now apply elem_of_dom.
Qed.

Lemma extends_trans h1 h2 h3 :
  Store.extends h1 h2 -> Store.extends h2 h3 -> Store.extends h1 h3.
Proof.
  intros H12 H23 l Hl. rewrite (H23 l (extends_dom h1 h2 l H12 Hl)).
  now apply H12.
Qed.

Lemma extends_items h h' l :
  Store.extends h h' -> l ∈ dom h -> Store.items h' l = Store.items h l.
Proof. intros Hext Hl. unfold Store.items. now rewrite (Hext l Hl). Qed.

(** A new list object is not one of the objects of the store, and
    creating it changes none of them. *)
Lemma alloc_spec h ms l h' :
  Store.alloc h ms = (l, h') ->
  (l ∉ dom h) /\ (l ∈ dom h') /\ Store.extends h h' /\ Store.items h' l = ms.
Proof.
  unfold Store.alloc. intros [= <- <-].
  pose proof (is_fresh (dom h)) as Hfresh.
  repeat split.
  - exact Hfresh.
  - apply elem_of_dom. rewrite lookup_insert_eq. now eexists.
  - intros l Hl. apply lookup_insert_ne. intros Heq. apply Hfresh. now rewrite Heq.
  - unfold Store.items. now rewrite lookup_insert_eq.
Qed.

(** The loop of [build_messages] on the copy [c]: it changes no other
    list object, it computes what [drop_oldest] computes, and its
    condition is false when it ends. *)
Lemma drop_loop_spec self eph c cm : forall n h,
  Store.file_messages self <> c ->
  _system cm = Store.system self ->
  _max_total cm = Store.max_total self ->
  _file_messages cm = Store.items h (Store.file_messages self) ->
  (length (Store.items h c) <= n)%nat ->
  let h' := Store.drop_loop n self eph c h in
  (forall l, l <> c -> h' !! l = h !! l)
  /\ (c ∈ dom h -> c ∈ dom h')
  /\ Store.items h' c = drop_oldest cm eph (Store.items h c)
  /\ Store.loop_condition self eph c h' = false.
Proof.
  induction n as [| n IH]; intros h Hne Hsys Hmax Hfiles Hlen h'; subst h'.
  - simpl. destruct (Store.items h c) as [| m rest] eqn:E; [| simpl in Hlen; lia].
    repeat split; try tauto.
    unfold Store.loop_condition. rewrite E. simpl. apply andb_false_r.
  - cbn [Store.drop_loop].
    destruct (Store.items h c) as [| m rest] eqn:E.
    + rewrite andb_false_r. repeat split; try tauto.
      unfold Store.loop_condition. rewrite E. simpl. apply andb_false_r.
    + assert (Htot : Store.total_tokens self eph h c = total_tokens cm eph (m :: rest)).
      { unfold Store.total_tokens, total_tokens. now rewrite Hsys, Hfiles, E. }
      rewrite Htot, <- Hmax. cbn [drop_oldest].
      assert (Hnd : bool_decide (m :: rest = []) = false)
        by now apply bool_decide_eq_false.
      rewrite Hnd, andb_true_r.
      destruct (total_tokens cm eph (m :: rest) >? _max_total cm) eqn:Hover.
      * assert (Hpop : Store.items (Store.pop0 h c) c = rest).
        { unfold Store.pop0, Store.items at 1. rewrite lookup_insert_eq. simpl.
          now rewrite E. }
        assert (Hfiles' : _file_messages cm
                          = Store.items (Store.pop0 h c) (Store.file_messages self)).
        { rewrite Hfiles. unfold Store.pop0, Store.items at 2.
          now rewrite lookup_insert_ne by congruence. }
        destruct (IH (Store.pop0 h c) Hne Hsys Hmax Hfiles')
          as (Hother & Hdom & Hitems & Hcond).
        { rewrite Hpop. simpl in Hlen. lia. }
        repeat split.
        -- intros l Hl. rewrite (Hother l Hl). unfold Store.pop0.
           now apply lookup_insert_ne.
        -- intros _. apply Hdom. unfold Store.pop0.
           apply elem_of_dom. rewrite lookup_insert_eq. now eexists.
        -- now rewrite Hitems, Hpop.
        -- exact Hcond.
      * repeat split; try tauto.
        unfold Store.loop_condition. now rewrite Htot, <- Hmax, Hover.
Qed.

(** C10: [build_messages] returns with the manager and every list object
    of the store as they were: the system message, the file layer, the
    conversation layer and the pin set are unchanged, and the returned
    list is the one computed from their values. The messages dropped and
    the entries re-truncated are those of new list objects. *)
Theorem build_messages_frame (self : Store.Manager) (e : option str)
    (h : gmap Store.loc (list Message)) :
  Store.file_messages self ∈ dom h ->
  Store.convo_messages self ∈ dom h ->
  let r := Store.build_messages self e h in
  snd (fst r) = self
  /\ Store.extends h (snd r)
  /\ Store.value (snd (fst r)) (snd r) = Store.value self h
  /\ fst (fst r) = build_messages (Store.value self h) e.
Proof.
  intros Hf Hc r. subst r. unfold Store.build_messages, Store.list_copy.
  set (eph := ephemeral_of e). set (cm := Store.value self h).
  destruct (Store.alloc h (Store.items h (Store.convo_messages self)))
    as [c h1] eqn:E1.
  apply alloc_spec in E1 as (Hc_new & Hc1 & Hext1 & Hitems1).
  assert (Hfc : Store.file_messages self <> c)
    by (intros Heq; apply Hc_new; now rewrite <- Heq).
  destruct (drop_loop_spec self eph c cm (length (Store.items h1 c)) h1)
    as (Hother & Hdom2 & Hitems2 & _); try reflexivity; try assumption.
  { subst cm. simpl. symmetry. now apply extends_items. }
  set (h2 := Store.drop_loop (length (Store.items h1 c)) self eph c h1) in *.
  assert (Hext2 : Store.extends h h2).
  { intros l Hl. rewrite Hother by (intros Heq; apply Hc_new; now rewrite <- Heq).
    now apply Hext1. }
  rewrite Hitems1 in Hitems2.
  destruct (Store.alloc h2 (Store.items h2 (Store.file_messages self)))
    as [f h3] eqn:E3.
  apply alloc_spec in E3 as (Hf_new & Hf3 & Hext3 & Hitems3).
  rewrite (extends_items h h2 _ Hext2 Hf) in Hitems3.
  assert (Hc3 : Store.items h3 c = drop_oldest cm eph (_convo_messages cm)).
  { rewrite (extends_items h2 h3 c Hext3 (Hdom2 Hc1)). exact Hitems2. }
  assert (Htot : Store.total_tokens self eph h3 c
                 = total_tokens cm eph (drop_oldest cm eph (_convo_messages cm))).
  { unfold Store.total_tokens, total_tokens. rewrite Hc3.
    rewrite (extends_items h h3 _ (extends_trans _ _ _ Hext2 Hext3) Hf).
    reflexivity. }
  rewrite Htot.
  change (Store.max_total self) with (_max_total cm).
  unfold build_messages, built_files. fold eph.
  destruct (total_tokens cm eph (drop_oldest cm eph (_convo_messages cm))
              >? _max_total cm).
  - destruct (Store.alloc h3 _) as [f' h4] eqn:E4.
    apply alloc_spec in E4 as (Hf'_new & Hf4 & Hext4 & Hitems4).
    destruct (Store.alloc h4 _) as [a h5] eqn:E5.
    apply alloc_spec in E5 as (Ha_new & Ha5 & Hext5 & Hitems5).
    assert (Hext : Store.extends h h5)
      by exact (extends_trans _ _ _ Hext2
                  (extends_trans _ _ _ Hext3 (extends_trans _ _ _ Hext4 Hext5))).
    cbn [fst snd]. repeat split.
    + exact Hext.
    + subst cm. unfold Store.value.
      now rewrite !(extends_items h h5 _ Hext) by assumption.
    + rewrite Hitems5, Hitems4, Hitems3.
      rewrite (extends_items h3 h4 c Hext4
                 (extends_dom h2 h3 c Hext3 (Hdom2 Hc1))), Hc3.
      reflexivity.
  - destruct (Store.alloc h3 _) as [a h5] eqn:E5.
    apply alloc_spec in E5 as (Ha_new & Ha5 & Hext5 & Hitems5).
    assert (Hext : Store.extends h h5)
      by exact (extends_trans _ _ _ Hext2 (extends_trans _ _ _ Hext3 Hext5)).
    cbn [fst snd]. repeat split.
    + exact Hext.
    + subst cm. unfold Store.value.
      now rewrite !(extends_items h h5 _ Hext) by assumption.
    + rewrite Hitems5, Hitems3, Hc3. reflexivity.
Qed.

Lemma build_messages_frame_witness :
  let self := Store.mkManager (mkMessage (lit "system") (lit "s")) 1 51 40
                0%nat 1%nat ∅ in
  let h : gmap Store.loc (list Message) :=
    <[0%nat := [file_entry 51 (lit "/a") (lit "text")]]>
      (<[1%nat := [mkMessage (lit "user") (lit "hello")]]> ∅) in
  let r := Store.build_messages self None h in
  Store.value (snd (fst r)) (snd r) = Store.value self h
  /\ Store.items (snd r) 1%nat = [mkMessage (lit "user") (lit "hello")].
Proof.
  intros self h r.
  assert (H0 : Store.file_messages self ∈ dom h).
  { apply elem_of_dom. exists [file_entry 51 (lit "/a") (lit "text")].
    apply lookup_insert_eq. }
  assert (H1 : Store.convo_messages self ∈ dom h).
  { apply elem_of_dom. exists [mkMessage (lit "user") (lit "hello")].
    unfold h. rewrite lookup_insert_ne by discriminate. apply lookup_insert_eq. }
  destruct (build_messages_frame self None h H0 H1) as (_ & Hext & Hvalue & _).
  split; [exact Hvalue |].
  fold r in Hext. rewrite (extends_items h (snd r) 1%nat Hext H1).
  unfold Store.items, h. rewrite lookup_insert_ne by discriminate.
  now rewrite lookup_insert_eq.
Defined.

(** * Further properties *)

(** ** The per-file budget above 50 tokens *)

Lemma slice_to_firstn {A} (l : list A) n :
  0 <= n -> slice_to l n = firstn (Z.to_nat n) l.
Proof. apply slice_to_nonneg. Qed.

Lemma slice_from_neg_lastn {A} (l : list A) k :
  0 < k -> slice_from l (- k) = lastn (Z.to_nat k) l.
Proof.
  intros Hk. unfold slice_from, norm_index, lastn, len.
  destruct (Z.ltb_spec (- k) 0); [| lia].
  f_equal. lia.
Qed.

(** X1: with a per-file budget of at least 51 tokens, the text
    [_apply_file_budget] returns has at most [4 * max_file_tokens]
    characters; a text over that length is returned as its first
    [2 * max_file_tokens] characters, the marker and its last
    [2 * max_file_tokens - 100] characters. *)
Theorem apply_file_budget_fits_above_50 mft text :
  51 <= mft ->
  len (apply_file_budget mft text) <= mft * 4
  /\ (mft * 4 < len text ->
      apply_file_budget mft text
        = firstn (Z.to_nat (2 * mft)) text ++ TRUNCATED
          ++ lastn (Z.to_nat (2 * mft - 100)) text).
Proof.
  intros Hm. split.
  - destruct (Z.le_gt_cases (len text) (mft * 4)) as [Hfit | Hcut].
    + now rewrite apply_file_budget_fits.
    + rewrite apply_file_budget_cut_len by lia. lia.
  - intros Hcut. rewrite apply_file_budget_cut by assumption.
    replace (mft * 4 / 2) with (2 * mft)
      by (apply (Z.div_unique_exact (mft * 4) 2); lia).
    rewrite slice_to_firstn by lia.
    now rewrite slice_from_neg_lastn by lia.
Qed.

Lemma apply_file_budget_fits_above_50_witness :
  len (apply_file_budget 51 (rep 300 "x")) <= 204.
Proof.
  exact (proj1 (apply_file_budget_fits_above_50 51 (rep 300 "x") (Z.le_refl 51))).
Defined.

(** ** Pins *)

(** X2: [pin_file] on a path with no entry in the file layer returns
    [False] and changes nothing; on a path with an entry it returns
    [True], the path is pinned afterwards, and the file layer, the
    conversation and the other pins are as before. *)
Theorem pin_file_loaded_only (abspath : str -> str) self path :
  (existsb (is_entry (abspath path)) (_file_messages self) = false ->
     pin_file abspath self path = (false, self))
  /\ (existsb (is_entry (abspath path)) (_file_messages self) = true ->
      let '(pinned, self') := pin_file abspath self path in
      pinned = true
      /\ is_pinned abspath self' path = true
      /\ _file_messages self' = _file_messages self
      /\ _convo_messages self' = _convo_messages self
      /\ (forall q, q <> abspath path ->
            (q ∈ _pinned_files self' <-> q ∈ _pinned_files self))).
Proof.
  unfold pin_file, is_pinned. split; intros Hentry; rewrite Hentry; [reflexivity |].
  cbn [set_pinned _pinned_files _file_messages _convo_messages].
  repeat split.
  - apply bool_decide_eq_true. apply elem_of_union. left. now apply elem_of_singleton.
  - intros Hq. apply elem_of_union in Hq as [Hq | Hq]; [| exact Hq].
    apply elem_of_singleton in Hq. contradiction.
  - intros Hq. apply elem_of_union. now right.
Qed.

Lemma pin_file_loaded_only_witness :
  pin_file (fun p => p) (init [] 4500 1500 40) (lit "/a")
    = (false, init [] 4500 1500 40).
Proof.
  exact (proj1 (pin_file_loaded_only (fun p => p) (init [] 4500 1500 40) (lit "/a"))
           eq_refl).
Defined.

(** X3: after [unpin_file] the path is not pinned, whatever it was
    before; the layers are untouched, the other pins stay, and
    unpinning a path that is not pinned changes nothing. *)
Theorem unpin_file_clears_pin (abspath : str -> str) self path :
  is_pinned abspath (unpin_file abspath self path) path = false
  /\ _file_messages (unpin_file abspath self path) = _file_messages self
  /\ _convo_messages (unpin_file abspath self path) = _convo_messages self
  /\ (forall q, abspath q <> abspath path ->
        is_pinned abspath (unpin_file abspath self path) q = is_pinned abspath self q)
  /\ (is_pinned abspath self path = false -> unpin_file abspath self path = self).
Proof.
  unfold unpin_file, is_pinned. cbn [set_pinned _pinned_files _file_messages _convo_messages].
  repeat split.
  - apply bool_decide_eq_false. apply not_elem_of_difference. right.
    now apply elem_of_singleton.
  - intros q Hq. apply bool_decide_ext. rewrite elem_of_difference, elem_of_singleton.
    tauto.
  - intros Hpin. apply bool_decide_eq_false in Hpin.
    assert (Hsame : _pinned_files self ∖ {[abspath path]} = _pinned_files self).
    { apply set_eq. intros q. rewrite elem_of_difference, elem_of_singleton.
      split; [tauto |]. intros Hq. split; [exact Hq |]. now intros ->. }
    unfold set_pinned. rewrite Hsame. now destruct self.
Qed.

Lemma unpin_file_clears_pin_witness :
  unpin_file (fun p => p) (init [] 4500 1500 40) (lit "/a") = init [] 4500 1500 40.
Proof.
  apply (proj2 (proj2 (proj2 (proj2
    (unpin_file_clears_pin (fun p => p) (init [] 4500 1500 40) (lit "/a")))))).
  unfold is_pinned. apply bool_decide_eq_false. apply not_elem_of_empty.
Defined.

(** ** The conversation window *)

(** X4: with a maximum of at least one message and a conversation
    within it, after any sequence of [add_user] and [add_assistant]
    calls the conversation layer holds at most [max_convo] messages:
    the most recent ones of the old and the appended messages, in the
    order they were appended. *)
Theorem conversation_window self ts :
  1 <= _max_convo self ->
  len (_convo_messages self) <= _max_convo self ->
  let after := _convo_messages (append_turns self ts) in
  after = lastn (Z.to_nat (_max_convo self))
            (_convo_messages self ++ map turn_message ts)
  /\ len after <= _max_convo self
  /\ (exists n, after = skipn n (_convo_messages self ++ map turn_message ts)).
Proof.
  intros Hmax Hlen after. subst after.
  rewrite (append_turns_lastn ts self Hmax Hlen).
  split; [reflexivity |]. split.
  - unfold len. rewrite length_lastn. lia.
  - unfold lastn. now eexists.
Qed.

Lemma conversation_window_witness :
  _convo_messages
    (append_turns (init [] 4500 1500 2)
       [UserTurn (lit "a"); AssistantTurn (lit "b"); UserTurn (lit "c")])
  = [mkMessage (lit "assistant") (lit "b"); mkMessage (lit "user") (lit "c")].
Proof.
  assert (H1 : 1 <= _max_convo (init [] 4500 1500 2)) by (simpl; lia).
  assert (H2 : len (_convo_messages (init [] 4500 1500 2))
               <= _max_convo (init [] 4500 1500 2)) by (unfold len; simpl; lia).
  exact (proj1 (conversation_window (init [] 4500 1500 2)
           [UserTurn (lit "a"); AssistantTurn (lit "b"); UserTurn (lit "c")] H1 H2)).
Defined.

(** ** What [build_messages] returns *)

Lemma drop_oldest_within self eph convo :
  total_tokens self eph convo <= _max_total self ->
  drop_oldest self eph convo = convo.
Proof.
  intros Hfit. destruct convo as [| m convo]; [reflexivity |].
  cbn [drop_oldest].
  destruct (Z.gtb_spec (total_tokens self eph (m :: convo)) (_max_total self));
    [lia | reflexivity].
Qed.

(** The loop drops the fewest oldest messages: every shorter drop
    leaves the total over the budget. *)
Lemma drop_oldest_least self eph convo :
  exists n,
    drop_oldest self eph convo = skipn n convo
    /\ (n <= length convo)%nat
    /\ (forall k, (k < n)%nat ->
          total_tokens self eph (skipn k convo) > _max_total self).
Proof.
  induction convo as [| m convo (n & Heq & Hn & Hover)].
  - exists 0%nat. repeat split; [simpl; lia | intros k Hk; lia].
  - cbn [drop_oldest].
    destruct (Z.gtb_spec (total_tokens self eph (m :: convo)) (_max_total self))
      as [Hgt | Hle].
    + exists (S n). repeat split; [exact Heq | simpl; lia |].
      intros [| k] Hk; simpl; [lia |]. apply Hover. lia.
    + exists 0%nat. repeat split; [simpl; lia | intros k Hk; lia].
Qed.

(** X5: when the system message, the file layer, the conversation and
    the ephemeral message are together within the global budget,
    [build_messages] returns all of them unchanged, in this order; with
    no ephemeral message this is when [estimated_total_tokens] is
    within the budget. *)
Theorem build_messages_within_budget_unchanged self e :
  (total_tokens self (ephemeral_of e) (_convo_messages self) <= _max_total self ->
     build_messages self e =
       map to_dict ([_system self] ++ _file_messages self
                    ++ _convo_messages self ++ ephemeral_of e))
  /\ (estimated_total_tokens self <= _max_total self ->
     build_messages self None =
       map to_dict ([_system self] ++ _file_messages self ++ _convo_messages self)).
Proof.
  assert (Hgen : forall e',
    total_tokens self (ephemeral_of e') (_convo_messages self) <= _max_total self ->
    build_messages self e' =
      map to_dict ([_system self] ++ _file_messages self
                   ++ _convo_messages self ++ ephemeral_of e')).
  { intros e' Hfit. unfold build_messages, built_files.
    rewrite (drop_oldest_within _ _ _ Hfit).
    destruct (Z.gtb_spec (total_tokens self (ephemeral_of e') (_convo_messages self))
                (_max_total self)); [lia | reflexivity]. }
  split; [apply Hgen |].
  intros Hfit. rewrite Hgen.
  - simpl. now rewrite app_nil_r.
  - unfold total_tokens, estimated_total_tokens in *. simpl. lia.
Qed.

Lemma build_messages_within_budget_unchanged_witness :
  let self := add_user (init (lit "be brief") 4500 1500 40) (lit "hello") in
  build_messages self None
    = map to_dict [_system self; mkMessage (lit "user") (lit "hello")].
Proof.
  intros self.
  apply (proj2 (build_messages_within_budget_unchanged self None)).
  vm_compute. discriminate.
Defined.

(** X6: the list [build_messages] returns always starts with the system
    message, unchanged; it holds one message per entry of the file
    layer, with the role of the entry; then a suffix of the conversation
    layer; and it ends with the ephemeral message when one is given. *)
Theorem build_messages_shape self e :
  exists file_msgs n,
    build_messages self e =
      to_dict (_system self)
      :: map to_dict (file_msgs ++ skipn n (_convo_messages self) ++ ephemeral_of e)
    /\ length file_msgs = length (_file_messages self)
    /\ map role file_msgs = map role (_file_messages self).
Proof.
  destruct (drop_oldest_suffix self (ephemeral_of e) (_convo_messages self)) as [n Hn].
  exists (built_files self (ephemeral_of e)
            (drop_oldest self (ephemeral_of e) (_convo_messages self))), n.
  split; [| split].
  - unfold build_messages. now rewrite <- Hn.
  - unfold built_files. destruct (_ >? _); [apply length_map | reflexivity].
  - unfold built_files. destruct (_ >? _); [| reflexivity].
    rewrite map_map. reflexivity.
Qed.

(** X7: [build_messages] drops the fewest oldest conversation messages:
    the conversation it sends is a suffix of the layer, every longer
    suffix is over the budget, and the entries of the file layer are
    re-truncated only when no conversation message is left. *)
Theorem build_messages_drops_least self e :
  let eph := ephemeral_of e in
  let kept := drop_oldest self eph (_convo_messages self) in
  exists n,
    kept = skipn n (_convo_messages self)
    /\ (forall k, (k < n)%nat ->
          total_tokens self eph (skipn k (_convo_messages self)) > _max_total self)
    /\ (total_tokens self eph kept <= _max_total self \/ kept = [])
    /\ (kept <> [] -> built_files self eph kept = _file_messages self)
    /\ build_messages self e =
         map to_dict ([_system self] ++ built_files self eph kept ++ kept ++ eph).
Proof.
  intros eph kept.
  destruct (drop_oldest_least self eph (_convo_messages self)) as (n & Heq & _ & Hover).
  exists n. fold kept in Heq.
  pose proof (drop_oldest_exit self eph (_convo_messages self)) as Hexit.
  fold kept in Hexit.
  repeat split; try assumption.
  intros Hkept. destruct Hexit as [Hfit | Hnil]; [| contradiction].
  unfold built_files.
  destruct (Z.gtb_spec (total_tokens self eph kept) (_max_total self));
    [lia | reflexivity].
Qed.

Lemma token_estimate_short m n :
  0 <= n -> len (content m) <= 2 * n -> token_estimate m <= Z.max 1 (n / 2).
Proof.
  intros Hn Hlen. unfold token_estimate.
  assert (len (content m) / 4 <= n / 2).
  { replace (n / 2) with ((2 * n) / 4).
    - apply Z.div_le_mono; lia.
    - replace 4 with (2 * 2) by reflexivity.
      rewrite Z.div_mul_cancel_l by lia. reflexivity. }
  lia.
Qed.

Lemma sum_tokens_bounded msgs b :
  (forall m, In m msgs -> token_estimate m <= b) ->
  sum_tokens msgs <= len msgs * b.
Proof.
  unfold len. induction msgs as [| m msgs IH]; intros Hb; simpl length; simpl sum_tokens.
  - lia.
  - specialize (IH (fun x Hx => Hb x (or_intror Hx))).
    specialize (Hb m (or_introl eq_refl)). nia.
Qed.

(** X8: with a per-file budget of at least zero tokens, the estimate of
    the list [build_messages] returns is within the global budget or,
    failing that, within the estimate of the system message, of the
    ephemeral message and of [max(1, max_file_tokens // 2)] tokens per
    entry of the file layer. *)
Theorem build_messages_worst_case self e :
  0 <= _max_file_tokens self ->
  dicts_tokens (build_messages self e)
    <= Z.max (_max_total self)
         (token_estimate (_system self)
          + len (_file_messages self) * Z.max 1 (_max_file_tokens self / 2)
          + sum_tokens (ephemeral_of e)).
Proof.
  intros Hm. rewrite build_messages_tokens.
  set (eph := ephemeral_of e).
  destruct (drop_oldest_exit self eph (_convo_messages self)) as [Hfit | Hnil].
  - unfold built_files.
    destruct (Z.gtb_spec
        (total_tokens self eph (drop_oldest self eph (_convo_messages self)))
        (_max_total self)); [lia |].
    unfold total_tokens in Hfit. lia.
  - rewrite Hnil. unfold built_files.
    destruct (Z.gtb_spec (total_tokens self eph []) (_max_total self)) as [Hover | Hok].
    + assert (Hfiles : sum_tokens (map (shrink_file self) (_file_messages self))
                       <= len (map (shrink_file self) (_file_messages self))
                          * Z.max 1 (_max_file_tokens self / 2)).
      { apply sum_tokens_bounded. intros m Hin.
        apply in_map_iff in Hin as (m0 & <- & _).
        apply token_estimate_short; [assumption |].
        rewrite shrink_file_prefix by assumption. cbn [content].
        unfold len. rewrite length_firstn. lia. }
      unfold len in Hfiles. rewrite length_map in Hfiles. fold (len (_file_messages self)) in Hfiles.
      simpl sum_tokens. lia.
    + unfold total_tokens in Hok. simpl in *. lia.
Qed.

Lemma build_messages_worst_case_witness :
  dicts_tokens (build_messages crowded_manager None) <= Z.max 10 (1 + 1 * 25 + 0).
Proof.
  apply (build_messages_worst_case crowded_manager None). simpl. lia.
Defined.

(** ** [get_stats] and [file_paths] *)

Lemma startswith_first_line (t s : str) :
  no_line_break t -> startswith (first_line s) t = startswith s t.
Proof.
  unfold no_line_break. revert s.
  induction t as [| c t IH]; intros s Ht; [reflexivity |].
  destruct s as [| d s]; [reflexivity |].
  cbn [first_line].
  destruct (Ascii.eqb_spec d nl) as [-> | Hd]; cbn [startswith].
  - destruct (Ascii.eqb_spec c nl) as [-> | _]; [| reflexivity].
    exfalso. apply Ht. now left.
  - destruct (Ascii.eqb c d); [| reflexivity].
    apply IH. intros Hin. apply Ht. now right.
Qed.

(** X9: for every state of the manager, the paths of the items of
    [get_stats()["files"]] are the paths [file_paths()] lists, in the
    same order; each item carries the estimate of its entry and whether
    its path is pinned, and [file_count] is at least their number. *)
Theorem get_stats_files self :
  map Stats.path (Stats.files (get_stats self)) = file_paths self
  /\ len (Stats.files (get_stats self)) <= Stats.file_count (get_stats self)
  /\ (forall f, In f (Stats.files (get_stats self)) ->
        Stats.pinned f = bool_decide (Stats.path f ∈ _pinned_files self)
        /\ exists m, In m (_file_messages self)
                     /\ Stats.tokens f = token_estimate m
                     /\ entry_paths m = [Stats.path f]).
Proof.
  assert (Htag : no_line_break (lit "[PROJECT_FILE] ")).
  { intros Hin. repeat (destruct Hin as [Hin | Hin]; [discriminate Hin |]). exact Hin. }
  assert (Hpaths : forall m,
            map Stats.path (file_stats_of self m) = entry_paths m).
  { intros m. unfold file_stats_of, entry_paths.
    rewrite (startswith_first_line _ (content m) Htag).
    now destruct (startswith (content m) (lit "[PROJECT_FILE] ")). }
  unfold get_stats, file_paths. cbn [Stats.files Stats.file_count].
  split; [| split].
  - induction (_file_messages self) as [| m msgs IH]; [reflexivity |].
    simpl. now rewrite map_app, Hpaths, IH.
  - unfold len. apply inj_le.
    induction (_file_messages self) as [| m msgs IH]; simpl; [lia |].
    rewrite length_app. unfold file_stats_of at 1.
    destruct (startswith (content m) (lit "[PROJECT_FILE] ")); simpl; lia.
  - intros f Hin. apply in_flat_map in Hin as (m & Hm & Hf).
    pose proof (Hpaths m) as Hp. unfold file_stats_of in Hf, Hp.
    destruct (startswith (content m) (lit "[PROJECT_FILE] ")); [| contradiction].
    destruct Hf as [<- | []]. cbn [Stats.pinned Stats.path Stats.tokens].
    split; [reflexivity |]. exists m. repeat split; [assumption |].
    now rewrite <- Hp.
Qed.

(** ** Pinned paths are loaded *)

Lemma existsb_is_entry_file_entry mft q files text :
  In (file_entry mft q text) files -> existsb (is_entry q) files = true.
Proof.
  intros Hin. apply existsb_exists. exists (file_entry mft q text).
  split; [assumption | apply is_entry_file_entry].
Qed.

Lemma step_max_file_tokens abspath self op :
  _max_file_tokens (ctx_step abspath self op) = _max_file_tokens self.
Proof.
  destruct op; simpl; try reflexivity.
  - unfold remove_file. now destruct (_ && _).
  - unfold pin_file. now destruct (existsb _ _).
  - unfold add_user. unfold _trim_convo. now destruct (_ >? _).
  - unfold add_assistant. unfold _trim_convo. now destruct (_ >? _).
Qed.

Lemma trim_convo_files self :
  _file_messages (_trim_convo self) = _file_messages self
  /\ _pinned_files (_trim_convo self) = _pinned_files self
  /\ _max_file_tokens (_trim_convo self) = _max_file_tokens self.
Proof. unfold _trim_convo. now destruct (_ >? _). Qed.

(** Removing the entries of [p] keeps the file layer well formed, for
    any pin set whose paths other than [p] are pinned before. *)
Lemma without_entry_well_formed self p pins :
  no_line_break p ->
  files_well_formed self ->
  (forall q, q ∈ pins -> q ∈ _pinned_files self /\ q <> p) ->
  files_well_formed
    (set_pinned (set_files self (without_entry p (_file_messages self))) pins).
Proof.
  intros Hp (Hform & Huniq & Hpin) Hpins.
  unfold files_well_formed, entries_for.
  cbn [set_pinned set_files _file_messages _pinned_files _max_file_tokens].
  split; [| split].
  - intros m Hin. apply filter_In in Hin as [Hin _]. now apply Hform.
  - intros q Hq. unfold without_entry.
    pose proof (filter_filter_length (is_entry q) (fun m => negb (is_entry p m))
                  (_file_messages self)).
    specialize (Huniq q Hq). unfold entries_for in Huniq. lia.
  - intros q Hq. destruct (Hpins q Hq) as [Hold Hne].
    destruct (Hpin q Hold) as [Hnl Hex]. split; [assumption |].
    apply existsb_exists in Hex as (m & Hm & Hqm).
    apply existsb_exists. exists m. split; [| assumption].
    apply filter_In. split; [assumption |].
    destruct (Hform m Hm) as (q' & text & Hq' & ->).
    destruct (is_entry p (file_entry (_max_file_tokens self) q' text)) eqn:E;
      [| reflexivity].
    apply is_entry_file_entry_inv in E; [| assumption | assumption].
    apply is_entry_file_entry_inv in Hqm; [| assumption | assumption].
    congruence.
Qed.

Lemma step_well_formed abspath self op :
  op_no_line_break abspath op ->
  files_well_formed self ->
  files_well_formed (ctx_step abspath self op).
Proof.
  intros Hop Hwf. destruct op as [p text | p force | p | p | text | text |];
    cbn [ctx_step op_no_line_break] in *.
  - (* upsert_file *)
    pose proof (without_entry_well_formed self p
                  (_pinned_files self ∖ {[p]}) Hop Hwf) as Hrm.
    destruct Hwf as (Hform & Huniq & Hpin).
    unfold files_well_formed, entries_for.
    rewrite upsert_file_files, upsert_file_max_file_tokens.
    change (_pinned_files (upsert_file self p text)) with (_pinned_files self).
    split; [| split].
    + intros m Hin. apply in_app_or in Hin as [Hin | [<- | []]].
      * apply filter_In in Hin as [Hin _]. now apply Hform.
      * now exists p, text.
    + intros q Hq. rewrite List.filter_app, length_app. simpl.
      destruct (is_entry q (file_entry (_max_file_tokens self) p text)) eqn:E.
      * apply is_entry_file_entry_inv in E as <-; [| assumption | assumption].
        rewrite filter_without_entry. simpl. lia.
      * simpl. unfold without_entry.
        pose proof (filter_filter_length (is_entry q) (fun m => negb (is_entry p m))
                      (_file_messages self)).
        specialize (Huniq q Hq). unfold entries_for in Huniq. lia.
    + intros q Hq. destruct (Hpin q Hq) as [Hnl Hex]. split; [assumption |].
      rewrite existsb_app. apply orb_true_iff.
      destruct (decide (q = p)) as [-> | Hne].
      * right. simpl. now rewrite is_entry_file_entry.
      * left. destruct Hrm as (_ & _ & Hrm).
        { intros q' Hq'. apply elem_of_difference in Hq' as [Hin Hout].
          split; [assumption |]. intros ->. apply Hout. now apply elem_of_singleton. }
        apply (Hrm q). cbn [set_pinned _pinned_files].
        apply elem_of_difference. split; [assumption |].
        intros Hin. apply elem_of_singleton in Hin. contradiction.
  - (* remove_file *)
    unfold remove_file.
    destruct (bool_decide (abspath p ∈ _pinned_files self) && negb force);
      [exact Hwf |].
    cbn [snd]. apply without_entry_well_formed; [assumption | assumption |].
    cbn [set_files _pinned_files]. intros q Hq.
    apply elem_of_difference in Hq as [Hin Hout].
    split; [assumption |]. intros ->. apply Hout. now apply elem_of_singleton.
  - (* pin_file *)
    unfold pin_file.
    destruct (existsb (is_entry (abspath p)) (_file_messages self)) eqn:Hex;
      [| exact Hwf].
    destruct Hwf as (Hform & Huniq & Hpin).
    split; [exact Hform | split; [exact Huniq |]].
    cbn [snd set_pinned _pinned_files _file_messages]. intros q Hq.
    apply elem_of_union in Hq as [Hq | Hq]; [| now apply Hpin].
    apply elem_of_singleton in Hq as ->. now split.
  - (* unpin_file *)
    destruct Hwf as (Hform & Huniq & Hpin).
    split; [exact Hform | split; [exact Huniq |]].
    unfold unpin_file. cbn [set_pinned _pinned_files _file_messages]. intros q Hq.
    apply elem_of_difference in Hq as [Hq _]. now apply Hpin.
  - (* add_user *)
    unfold add_user, files_well_formed, entries_for in *.
    destruct (trim_convo_files
                (set_convo self (_convo_messages self ++ [mkMessage (lit "user") text])))
      as (-> & -> & ->). exact Hwf.
  - (* add_assistant *)
    unfold add_assistant, files_well_formed, entries_for in *.
    destruct (trim_convo_files
                (set_convo self
                   (_convo_messages self ++ [mkMessage (lit "assistant") text])))
      as (-> & -> & ->). exact Hwf.
  - (* reset_convo *)
    exact Hwf.
Qed.

(** X10: after any sequence of [upsert_file], [remove_file], [pin_file],
    [unpin_file], [add_user], [add_assistant] and [reset_convo] calls on
    paths without line break, starting with no file and no pin, every
    pinned path has exactly one entry in the file layer, and
    [file_paths] lists it. *)
Theorem pinned_paths_are_loaded (abspath : str -> str) self ops :
  _file_messages self = [] ->
  _pinned_files self = ∅ ->
  Forall (op_no_line_break abspath) ops ->
  forall q, q ∈ _pinned_files (ctx_run abspath self ops) ->
    length (entries_for q (ctx_run abspath self ops)) = 1%nat
    /\ In q (file_paths (ctx_run abspath self ops)).
Proof.
  intros Hfiles Hpins Hops.
  assert (Hwf : files_well_formed (ctx_run abspath self ops)).
  { assert (Hinit : files_well_formed self).
    { unfold files_well_formed, entries_for. rewrite Hfiles, Hpins.
      split; [| split].
      - intros m [].
      - intros q _. simpl. lia.
      - intros q Hq. now apply not_elem_of_empty in Hq. }
    clear Hfiles Hpins. unfold ctx_run. revert self Hinit.
    induction ops as [| op ops IH]; intros self Hinit; [exact Hinit |].
    apply Forall_cons in Hops as [Hop Hops]. simpl.
    apply IH; [assumption |]. now apply step_well_formed. }
  intros q Hq. destruct Hwf as (Hform & Huniq & Hpin).
  destruct (Hpin q Hq) as [Hnl Hex].
  apply existsb_exists in Hex as (m & Hm & Hqm).
  split.
  - specialize (Huniq q Hnl). unfold entries_for in *.
    assert (Hin : In m (List.filter (is_entry q)
                          (_file_messages (ctx_run abspath self ops))))
      by (apply filter_In; now split).
    destruct (List.filter (is_entry q) (_file_messages (ctx_run abspath self ops)));
      [contradiction | simpl in *; lia].
  - destruct (Hform m Hm) as (q' & text & Hq' & ->).
    apply is_entry_file_entry_inv in Hqm as ->; [| assumption | assumption].
    rewrite file_paths_entry_paths. apply in_flat_map.
    eexists. split; [exact Hm |].
    rewrite entry_paths_file_entry by assumption. now left.
Qed.

Lemma pinned_paths_are_loaded_witness :
  let ops := [OpUpsert (lit "/a") (lit "1"); OpPin (lit "/a");
              OpUpsert (lit "/b") (lit "2"); OpAddUser (lit "hello")] in
  In (lit "/a") (file_paths (ctx_run (fun p => p) (init [] 4500 1500 40) ops)).
Proof.
  intros ops.
  assert (Hline : forall c d : ascii, c <> nl -> d <> nl -> no_line_break [c; d]).
  { intros c d Hc Hd [H | [H | []]]; congruence. }
  assert (Hpins : _pinned_files (ctx_run (fun p => p) (init [] 4500 1500 40) ops)
                  = {[lit "/a"]} ∪ ∅) by reflexivity.
  refine (proj2 (pinned_paths_are_loaded (fun p => p) (init [] 4500 1500 40) ops
                   eq_refl eq_refl _ (lit "/a") _)).
  - repeat constructor; simpl; try exact I; apply Hline; discriminate.
  - rewrite Hpins. apply elem_of_union. left. now apply elem_of_singleton.
Defined.

(** ** The stream of [NvidiaProvider] *)

(** X11: every fragment [_parse_stream] yields has content or
    reasoning; it yields at most one fragment per chunk of the
    completion, and none for a chunk without choices. *)
Theorem parse_stream_fragments completion :
  Forall (fun c => nonempty (chunk_reasoning c) || nonempty (chunk_content c) = true)
         (_parse_stream completion)
  /\ (length (_parse_stream completion) <= length completion)%nat
  /\ (forall c, choices c = None \/ choices c = Some [] -> parse_chunk c = []).
Proof.
  split; [| split].
  - unfold _parse_stream. induction completion as [| c cs IH]; simpl; [constructor |].
    apply Forall_app. split; [| exact IH].
    unfold parse_chunk. destruct (choices c) as [[| ch chs] |]; try constructor.
    destruct (delta ch) as [d |]; [| constructor].
    destruct (nonempty (default [] (reasoning_content d))
              || nonempty (default [] (delta_content d))) eqn:E; [| constructor].
    constructor; [exact E | constructor].
  - unfold _parse_stream. induction completion as [| c cs IH]; simpl; [lia |].
    rewrite length_app.
    assert (length (parse_chunk c) <= 1)%nat; [| lia].
    unfold parse_chunk. destruct (choices c) as [[| ch chs] |]; simpl; try lia.
    destruct (delta ch) as [d |]; simpl; [| lia].
    destruct (_ || _); simpl; lia.
  - intros c [H | H]; unfold parse_chunk; now rewrite H.
Qed.

(** The trace of the loop from iteration [a]: the requests are
    consecutive, each failed attempt but possibly the last is followed
    by its wait, the fragments are those of the attempts made, and the
    loop ends by returning, with a [RuntimeError], or with an exception
    of the endpoint that is no API error. *)
Lemma stream_from_trace {float : Type} (float_mul : float -> Z -> float)
    (self : NvidiaProvider float) (create : nat -> attempt) :
  forall remaining a last_exc,
  exists n w,
    requests (fst (stream_from float_mul self create a remaining last_exc)) = seq a n
    /\ waits (fst (stream_from float_mul self create a remaining last_exc))
         = map (backoff float_mul self) (seq a w)
    /\ yields (fst (stream_from float_mul self create a remaining last_exc))
         = flat_map (fun k => _parse_stream (attempt_chunks (create k))) (seq a n)
    /\ (n <= remaining)%nat /\ (w <= n <= S w)%nat
    /\ (snd (stream_from float_mul self create a remaining last_exc) = Returned
        \/ (exists m, snd (stream_from float_mul self create a remaining last_exc)
                      = Raised (RuntimeError m))
        \/ (exists e k,
              snd (stream_from float_mul self create a remaining last_exc) = Raised e
              /\ attempt_end (create k) = Raised e /\ is_api_error e = false)).
Proof.
  induction remaining as [| remaining IH]; intros a last_exc.
  - exists 0%nat, 0%nat. cbn [stream_from fst snd]. repeat split; try lia.
    right. left. now eexists.
  - cbn [stream_from].
    destruct (attempt_end (create a)) as [| e] eqn:Hend.
    + exists 1%nat, 0%nat. cbn [fst snd].
      change (Request a :: ?l) with ([@Request float a] ++ l).
      rewrite requests_app, waits_app, yields_app.
      rewrite requests_Yield, waits_Yield, yields_Yield.
      repeat split; try lia; try (simpl; now rewrite ?app_nil_r).
      now left.
    + destruct (is_transient e) eqn:Htrans.
      * destruct (IH (S a) (Some e)) as (n & w & Hreq & Hwait & Hyield & Hn & Hw & Hfin).
        destruct (stream_from float_mul self create (S a) remaining (Some e))
          as [rest fin].
        cbn [fst snd] in *. exists (S n), (S w).
        change (Request a :: ?l) with ([@Request float a] ++ l).
        rewrite !requests_app, !waits_app, !yields_app.
        rewrite requests_Yield, waits_Yield, yields_Yield, Hreq, Hwait, Hyield.
        repeat split; try lia; try reflexivity. exact Hfin.
      * exists 1%nat, 0%nat. cbn [fst snd].
        change (Request a :: ?l) with ([@Request float a] ++ l).
        rewrite requests_app, waits_app, yields_app.
        rewrite requests_Yield, waits_Yield, yields_Yield.
        repeat split; try lia; try (simpl; now rewrite ?app_nil_r).
        destruct e; try discriminate Htrans.
        -- right. left. now eexists.
        -- right. left. now eexists.
        -- right. right. exists KeyboardInterrupt, a. now repeat split.
        -- right. right. eexists (OtherException msg), a. now repeat split.
Qed.

(** X12: [NvidiaProvider.stream] sends at most [max_retries] requests,
    numbered from 0; it waits after each failed attempt but possibly the
    last, for [retry_delay * 2^0], [retry_delay * 2^1], ... in this
    order; with [max_retries <= 0] it sends no request and raises the
    final [RuntimeError] with no last exception. *)
Theorem nvidia_stream_requests {float : Type} (float_mul : float -> Z -> float)
    (self : NvidiaProvider float) (create : nat -> attempt) :
  let run := nvidia_stream float_mul self create in
  (exists n w,
      requests (fst run) = seq 0 n
      /\ waits (fst run) = map (backoff float_mul self) (seq 0 w)
      /\ Z.of_nat n <= Z.max 0 (_max_retries self)
      /\ (w <= n <= S w)%nat)
  /\ (_max_retries self <= 0 ->
      run = ([], Raised (RuntimeError (RetriesFailedMessage (_max_retries self) None)))).
Proof.
  intros run. subst run. unfold nvidia_stream. split.
  - destruct (stream_from_trace float_mul self create
                (Z.to_nat (_max_retries self)) 0%nat None)
      as (n & w & Hreq & Hwait & _ & Hn & Hw & _).
    exists n, w. repeat split; try assumption; lia.
  - intros Hmax. replace (Z.to_nat (_max_retries self)) with 0%nat by lia.
    reflexivity.
Qed.

Lemma nvidia_stream_requests_witness :
  nvidia_stream Z.mul (mkNvidiaProvider (lit "m") 0 1500)
    (fun _ => Streams [] Returned)
  = ([], Raised (RuntimeError (RetriesFailedMessage 0 None))).
Proof.
  exact (proj2 (nvidia_stream_requests Z.mul (mkNvidiaProvider (lit "m") 0 1500)
                  (fun _ => Streams [] Returned)) (Z.le_refl 0)).
Defined.


(** X14: the fragments [NvidiaProvider.stream] yields are those of
    every attempt it made, in order: the fragments a failed attempt
    delivered before it failed stay in the stream, and the next attempt
    starts again from its first fragment. *)
Theorem nvidia_stream_yields {float : Type} (float_mul : float -> Z -> float)
    (self : NvidiaProvider float) (create : nat -> attempt) :
  let tr := fst (nvidia_stream float_mul self create) in
  yields tr
    = flat_map (fun k => _parse_stream (attempt_chunks (create k))) (requests tr).
Proof.
  intros tr. subst tr. unfold nvidia_stream.
  destruct (stream_from_trace float_mul self create
              (Z.to_nat (_max_retries self)) 0%nat None)
    as (n & w & Hreq & _ & Hyield & _).
  now rewrite Hreq, Hyield.
Qed.

(** ** [OllamaProvider.stream] *)

Lemma collect_app a b : collect (a ++ b) = collect a ++ collect b.
Proof. unfold collect. apply flat_map_app. Qed.

(** X15: [OllamaProvider.stream] calls the endpoint once and ends as the
    call ends, an exception unchanged; its fragments carry content only,
    never empty, and their contents put together are the text the
    fragments of [NvidiaProvider._parse_stream] give for the same
    chunks. *)
Theorem ollama_stream_content_only (create : attempt) :
  ended (ollama_stream create) = attempt_end create
  /\ Forall (fun c => chunk_reasoning c = [] /\ nonempty (chunk_content c) = true)
            (delivered (ollama_stream create))
  /\ collect (delivered (ollama_stream create))
       = collect (_parse_stream (attempt_chunks create)).
Proof.
  unfold ollama_stream. cbn [ended delivered].
  split; [reflexivity |]. split.
  - induction (attempt_chunks create) as [| c cs IH]; simpl; [constructor |].
    apply Forall_app. split; [| exact IH].
    unfold ollama_parse_chunk. destruct (choices c) as [[| ch chs] |]; try constructor.
    destruct (delta ch) as [d |]; simpl; [| constructor].
    destruct (nonempty (default [] (delta_content d))) eqn:E; [| constructor].
    constructor; [now split | constructor].
  - unfold _parse_stream.
    induction (attempt_chunks create) as [| c cs IH]; simpl; [reflexivity |].
    rewrite !collect_app, IH. f_equal.
    unfold ollama_parse_chunk, parse_chunk.
    destruct (choices c) as [[| ch chs] |]; try reflexivity.
    destruct (delta ch) as [d |]; simpl; [| reflexivity].
    destruct (default [] (delta_content d)) as [| x text] eqn:E;
      destruct (default [] (reasoning_content d)); simpl; reflexivity.
Qed.

(** ** What [send] records and sends *)

(** X16: when the stream raises an exception that is neither
    [KeyboardInterrupt] nor a [RuntimeError], [send] raises it: the text
    accumulated so far is not recorded, the context is the one after
    the optional [add_user], and the fragments delivered before the
    exception have been displayed. *)
Theorem send_propagates {float P : Type} `{ModelProvider float P}
    (self : SessionManager float P) (user_message : str) (record_in_history : bool)
    (e : exn) :
  let ctx1 := send_context (_ctx self) user_message record_in_history in
  let run := stream (_provider self)
               (send_messages (_ctx self) user_message record_in_history)
               (_temperature self) (_max_tokens self) in
  ended run = Raised e ->
  e <> KeyboardInterrupt ->
  (forall m, e <> RuntimeError m) ->
  result (send self user_message record_in_history) = Raise e
  /\ ctx_after (send self user_message record_in_history) = ctx1
  /\ displayed (send self user_message record_in_history)
       = flat_map show_chunk (delivered run).
Proof.
  intros ctx1 run Hend Hki Hrt. unfold send.
  change (build_messages _ _) with
    (send_messages (_ctx self) user_message record_in_history).
  fold run. rewrite Hend.
  destruct e; try (now repeat split).
  all: try (exfalso; now apply (Hrt msg)).
  all: try contradiction.
Qed.

Lemma send_propagates_witness :
  let ollama := mkOllamaProvider (lit "llama3")
      (fun (_ : list (gmap str str)) (_ : Z) (_ : Z) =>
         Streams [mkCompletionChunk
                    (Some [mkChoice (Some (mkDelta None (Some (lit "partial"))))])]
                 (Raised (APIError (lit "server error")))) in
  let self := mkSessionManager ollama (init (lit "be brief") 4500 1500 40) 4 4096 in
  result (send self (lit "hi") true) = Raise (APIError (lit "server error"))
  /\ _convo_messages (ctx_after (send self (lit "hi") true))
       = [mkMessage (lit "user") (lit "hi")].
Proof.
  intros ollama self.
  destruct (send_propagates self (lit "hi") true (APIError (lit "server error")))
    as (Hres & Hctx & _).
  - reflexivity.
  - discriminate.
  - discriminate.
  - split; [exact Hres |]. rewrite Hctx. reflexivity.
Defined.

Lemma trim_convo_suffix self :
  exists n, _convo_messages (_trim_convo self) = skipn n (_convo_messages self).
Proof.
  unfold _trim_convo. destruct (_ >? _).
  - simpl. unfold slice_from. now eexists.
  - now exists 0%nat.
Qed.

Lemma skipn_snoc_last {A} n (l : list A) x :
  skipn n (l ++ [x]) = [] \/ last (skipn n (l ++ [x])) = Some x.
Proof.
  destruct (Nat.le_gt_cases n (length l)) as [Hle | Hgt].
  - right. rewrite skipn_app.
    replace (n - length l)%nat with 0%nat by lia. simpl. apply last_snoc.
  - left. apply skipn_all2. rewrite length_app. simpl. lia.
Qed.

(** X17: [send] leaves the system message, the budgets, the file layer
    and the pin set as they are, however the stream ends. With
    [record_in_history] false the user text is not stored: the
    conversation afterwards is the one before the call, or the one
    [add_assistant] makes of it with the accumulated text. *)
Theorem send_frame {float P : Type} `{ModelProvider float P}
    (self : SessionManager float P) (user_message : str) (record_in_history : bool) :
  let after := ctx_after (send self user_message record_in_history) in
  let ctx1 := send_context (_ctx self) user_message record_in_history in
  let run := stream (_provider self)
               (send_messages (_ctx self) user_message record_in_history)
               (_temperature self) (_max_tokens self) in
  (after = ctx1 \/ after = add_assistant ctx1 (collect (delivered run)))
  /\ (record_in_history = false -> ctx1 = _ctx self)
  /\ _system after = _system (_ctx self)
  /\ _file_messages after = _file_messages (_ctx self)
  /\ _pinned_files after = _pinned_files (_ctx self)
  /\ _max_total after = _max_total (_ctx self)
  /\ _max_file_tokens after = _max_file_tokens (_ctx self)
  /\ _max_convo after = _max_convo (_ctx self).
Proof.
  intros after ctx1 run.
  assert (Hcases : after = ctx1 \/ after = add_assistant ctx1 (collect (delivered run))).
  { subst after. unfold send.
    change (build_messages _ _) with
      (send_messages (_ctx self) user_message record_in_history).
    change (if record_in_history then add_user (_ctx self) user_message else _ctx self)
      with ctx1.
    fold run.
    destruct (ended run) as [| []]; cbn [ctx_after];
      try (now left); destruct (nonempty (collect (delivered run))); auto. }
  assert (Hfix : forall c : ContextManager,
            _system (_trim_convo c) = _system c
            /\ _file_messages (_trim_convo c) = _file_messages c
            /\ _pinned_files (_trim_convo c) = _pinned_files c
            /\ _max_total (_trim_convo c) = _max_total c
            /\ _max_file_tokens (_trim_convo c) = _max_file_tokens c
            /\ _max_convo (_trim_convo c) = _max_convo c).
  { intros c. unfold _trim_convo. now destruct (_ >? _). }
  assert (H1 : _system ctx1 = _system (_ctx self)
               /\ _file_messages ctx1 = _file_messages (_ctx self)
               /\ _pinned_files ctx1 = _pinned_files (_ctx self)
               /\ _max_total ctx1 = _max_total (_ctx self)
               /\ _max_file_tokens ctx1 = _max_file_tokens (_ctx self)
               /\ _max_convo ctx1 = _max_convo (_ctx self)).
  { subst ctx1. unfold send_context. destruct record_in_history; [| now repeat split].
    unfold add_user.
    destruct (Hfix (set_convo (_ctx self)
                (_convo_messages (_ctx self) ++ [mkMessage (lit "user") user_message])))
      as (-> & -> & -> & -> & -> & ->).
    now repeat split. }
  split; [exact Hcases |]. split; [now intros -> |].
  destruct Hcases as [-> | ->]; [exact H1 |].
  unfold add_assistant.
  destruct (Hfix (set_convo ctx1
              (_convo_messages ctx1
               ++ [mkMessage (lit "assistant") (collect (delivered run))])))
    as (-> & -> & -> & -> & -> & ->).
  exact H1.
Qed.



Lemma nvidia_stream_trace_end {float : Type} (float_mul : float -> Z -> float)
    (self : SessionManager float (NvidiaEndpoint float))
    (messages : list (gmap str str)) :
  let create := endpoint (_provider self) messages (_temperature self)
                  (_max_tokens self) in
  let fin := snd (nvidia_stream float_mul (provider (_provider self)) create) in
  fin = Returned
  \/ (exists m, fin = Raised (RuntimeError m))
  \/ (exists e k, fin = Raised e /\ attempt_end (create k) = Raised e
                  /\ is_api_error e = false).
Proof.
  intros create fin. subst fin. unfold nvidia_stream.
  destruct (stream_from_trace float_mul (provider (_provider self)) create
              (Z.to_nat (_max_retries (provider (_provider self)))) 0%nat None)
    as (n & w & _ & _ & _ & _ & _ & Hfin).
  exact Hfin.
Qed.



(** ** Dicts in insertion order *)

Section DictFacts.
Context {V : Type}.
Implicit Types d : Dict.t V.

Lemma has_key_true k (kv : str * V) : Dict.has_key k kv = true <-> fst kv = k.
Proof. unfold Dict.has_key. apply bool_decide_eq_true. Qed.

Lemma has_key_false k (kv : str * V) : Dict.has_key k kv = false <-> fst kv <> k.
Proof. unfold Dict.has_key. apply bool_decide_eq_false. Qed.

Lemma dict_contains_keys d k : Dict.contains d k = true <-> In k (Dict.keys d).
Proof.
  unfold Dict.contains, Dict.keys. rewrite existsb_exists, in_map_iff.
  split; intros (kv & H1 & H2).
  - exists kv. split; [now apply has_key_true | assumption].
  - exists kv. split; [assumption | now apply has_key_true].
Qed.

Lemma dict_get_none d k : Dict.get d k = None <-> ~ In k (Dict.keys d).
Proof.
  unfold Dict.get, Dict.keys. induction d as [| kv d IH]; simpl; [tauto |].
  destruct (Dict.has_key k kv) eqn:E; simpl.
  - apply has_key_true in E. split; [discriminate | tauto].
  - apply has_key_false in E. rewrite IH. tauto.
Qed.

Lemma dict_get_in d k v :
  List.NoDup (Dict.keys d) -> (Dict.get d k = Some v <-> In (k, v) d).
Proof.
  unfold Dict.get, Dict.keys. induction d as [| [k' v'] d IH]; simpl; intros Hnd.
  - split; [discriminate | tauto].
  - apply NoDup_cons_iff in Hnd as [Hout Hnd].
    destruct (Dict.has_key k (k', v')) eqn:E; simpl.
    + apply has_key_true in E. simpl in E. subst k'. split.
      * intros [= ->]. now left.
      * intros [[= ->] | Hin]; [reflexivity |].
        exfalso. apply Hout. apply in_map_iff. now exists (k, v).
    + apply has_key_false in E. simpl in E. rewrite (IH Hnd). split; [tauto |].
      intros [[= -> ->] | Hin]; [congruence | assumption].
Qed.

Lemma dict_get_set_eq d k v : Dict.get (Dict.set d k v) k = Some v.
Proof.
  unfold Dict.set. destruct (Dict.contains d k) eqn:Hc.
  - unfold Dict.get, Dict.contains in *.
    induction d as [| kv d IH]; simpl in *; [discriminate |].
    destruct (Dict.has_key k kv) eqn:E; simpl.
    + unfold Dict.has_key at 1. simpl. now rewrite bool_decide_eq_true_2.
    + rewrite E. simpl. now apply IH.
  - unfold Dict.get, Dict.contains in *.
    induction d as [| kv d IH]; simpl in *.
    + unfold Dict.has_key. simpl. now rewrite bool_decide_eq_true_2.
    + apply orb_false_iff in Hc as [E Hc]. rewrite E. now apply IH.
Qed.

Lemma dict_get_set_ne d k v k' : k' <> k -> Dict.get (Dict.set d k v) k' = Dict.get d k'.
Proof.
  intros Hne. unfold Dict.set, Dict.get. destruct (Dict.contains d k).
  - induction d as [| kv d IH]; simpl; [reflexivity |].
    destruct (Dict.has_key k kv) eqn:E.
    + apply has_key_true in E.
      assert (H1 : Dict.has_key k' (k, v) = false) by (apply has_key_false; simpl; congruence).
      assert (H2 : Dict.has_key k' kv = false) by (apply has_key_false; congruence).
      now rewrite H1, H2.
    + destruct (Dict.has_key k' kv); [reflexivity | exact IH].
  - induction d as [| kv d IH]; simpl.
    + assert (H1 : Dict.has_key k' (k, v) = false) by (apply has_key_false; simpl; congruence).
      now rewrite H1.
    + destruct (Dict.has_key k' kv); [reflexivity | exact IH].
Qed.

Lemma dict_keys_set d k v :
  Dict.keys (Dict.set d k v)
    = if Dict.contains d k then Dict.keys d else Dict.keys d ++ [k].
Proof.
  unfold Dict.set, Dict.keys. destruct (Dict.contains d k).
  - rewrite map_map. apply map_ext_in. intros kv _.
    destruct (Dict.has_key k kv) eqn:E; [| reflexivity].
    apply has_key_true in E. now simpl.
  - now rewrite map_app.
Qed.

Lemma dict_in_set d k v k' v' :
  In (k', v') (Dict.set d k v) <->
  (k' = k /\ v' = v) \/ (k' <> k /\ In (k', v') d).
Proof.
  unfold Dict.set. destruct (Dict.contains d k) eqn:Hc.
  - rewrite in_map_iff. split.
    + intros (kv & Heq & Hin). destruct (Dict.has_key k kv) eqn:E.
      * injection Heq as <- <-. now left.
      * subst kv. apply has_key_false in E. simpl in E. right. now split.
    + intros [[-> ->] | [Hne Hin]].
      * apply dict_contains_keys in Hc. unfold Dict.keys in Hc.
        apply in_map_iff in Hc as (kv & Hk & Hin). exists kv.
        split; [| assumption].
        assert (E : Dict.has_key k kv = true) by now apply has_key_true.
        now rewrite E.
      * exists (k', v'). split; [| assumption].
        assert (E : Dict.has_key k (k', v') = false) by now apply has_key_false.
        now rewrite E.
  - rewrite in_app_iff. split.
    + intros [Hin | [[= <- <-] | []]].
      * right. split; [| assumption]. intros ->.
        assert (Dict.contains d k = true); [| congruence].
        apply dict_contains_keys. unfold Dict.keys. apply in_map_iff. now exists (k, v').
      * now left.
    + intros [[-> ->] | [Hne Hin]]; [right; now left | now left].
Qed.

Lemma dict_in_pop d k k' v' :
  In (k', v') (Dict.pop d k) <-> In (k', v') d /\ k' <> k.
Proof.
  unfold Dict.pop. rewrite filter_In, negb_true_iff, has_key_false. reflexivity.
Qed.

Lemma dict_keys_pop d k :
  Dict.keys (Dict.pop d k)
    = List.filter (fun k' => negb (bool_decide (k' = k))) (Dict.keys d).
Proof.
  unfold Dict.pop, Dict.keys. induction d as [| kv d IH]; simpl; [reflexivity |].
  unfold Dict.has_key at 1. destruct (bool_decide (fst kv = k)); simpl; now rewrite IH.
Qed.

Lemma dict_pop_absent d k : Dict.get d k = None -> Dict.pop d k = d.
Proof.
  intros Hnone. apply dict_get_none in Hnone. unfold Dict.pop, Dict.keys in *.
  induction d as [| kv d IH]; simpl; [reflexivity |].
  destruct (Dict.has_key k kv) eqn:E.
  - apply has_key_true in E. exfalso. apply Hnone. now left.
  - simpl. f_equal. apply IH. intros Hin. apply Hnone. now right.
Qed.

Lemma dict_nodup_set d k v :
  List.NoDup (Dict.keys d) -> List.NoDup (Dict.keys (Dict.set d k v)).
Proof.
  intros Hnd. rewrite dict_keys_set. destruct (Dict.contains d k) eqn:Hc; [assumption |].
  apply List.NoDup_app; [assumption | repeat constructor; intros [] |].
  intros x Hx [-> | []].
  assert (Dict.contains d x = true) by now apply dict_contains_keys. congruence.
Qed.

Lemma dict_nodup_pop d k :
  List.NoDup (Dict.keys d) -> List.NoDup (Dict.keys (Dict.pop d k)).
Proof. intros Hnd. rewrite dict_keys_pop. now apply List.NoDup_filter. Qed.

End DictFacts.

Lemma dict_get_pop_eq {V} (d : Dict.t V) k : Dict.get (Dict.pop d k) k = None.
Proof.
  apply dict_get_none. rewrite dict_keys_pop. intros Hin.
  apply filter_In in Hin as [_ Hin].
  now rewrite bool_decide_eq_true_2 in Hin.
Qed.

Lemma dict_get_pop_ne {V} (d : Dict.t V) k k' :
  k' <> k -> Dict.get (Dict.pop d k) k' = Dict.get d k'.
Proof.
  intros Hne. unfold Dict.get, Dict.pop.
  induction d as [| kv d IH]; simpl; [reflexivity |].
  destruct (Dict.has_key k kv) eqn:E; simpl.
  - apply has_key_true in E.
    assert (H2 : Dict.has_key k' kv = false) by (apply has_key_false; congruence).
    now rewrite H2.
  - destruct (Dict.has_key k' kv); [reflexivity | exact IH].
Qed.

Lemma dict_in_keys {V} (d : Dict.t V) k : In k (Dict.keys d) <-> exists v, In (k, v) d.
Proof.
  unfold Dict.keys. rewrite in_map_iff. split.
  - intros ([k' v] & <- & Hin). now exists v.
  - intros [v Hin]. now exists (k, v).
Qed.

(** ** Snippets *)

(** X20: a saved snippet is the one [get] returns and [as_context_block]
    formats, saving leaves the other snippets and lists the name once;
    [delete] returns [True] exactly when the name was saved, the name is
    gone afterwards and the other snippets stay; deleting a name that
    was not saved changes nothing. *)
Theorem snippets_round_trip (self : Snippets.t) (name code : str) :
  Snippets.get (Snippets.save self name code) name = Some code
  /\ Snippets.as_context_block (Snippets.save self name code) name
       = Some (lit "[SNIPPET] " ++ name ++ [nl] ++ code)
  /\ (forall other, other <> name ->
        Snippets.get (Snippets.save self name code) other = Snippets.get self other
        /\ Snippets.get (snd (Snippets.delete self name)) other = Snippets.get self other)
  /\ (List.NoDup (Snippets.list_names self) ->
        List.NoDup (Snippets.list_names (Snippets.save self name code)))
  /\ In name (Snippets.list_names (Snippets.save self name code))
  /\ (fst (Snippets.delete self name) = true <-> Snippets.get self name <> None)
  /\ Snippets.get (snd (Snippets.delete self name)) name = None
  /\ (Snippets.get self name = None -> Snippets.delete self name = (false, self)).
Proof.
  unfold Snippets.get, Snippets.save, Snippets.as_context_block, Snippets.delete,
    Snippets.list_names, Snippets.get. cbn [fst snd].
  split; [apply dict_get_set_eq |].
  split; [now rewrite dict_get_set_eq |].
  split.
  { intros other Hne. split; [now apply dict_get_set_ne |].
    unfold Dict.get, Dict.pop. induction self as [| kv d IH]; simpl; [reflexivity |].
    destruct (Dict.has_key name kv) eqn:E; simpl.
    - apply has_key_true in E.
      assert (H2 : Dict.has_key other kv = false) by (apply has_key_false; congruence).
      now rewrite H2.
    - destruct (Dict.has_key other kv); [reflexivity | exact IH]. }
  split; [apply dict_nodup_set |].
  split.
  { rewrite dict_keys_set.
    destruct (Dict.contains self name) eqn:Hc.
    - now apply dict_contains_keys.
    - apply in_or_app. right. now left. }
  split; [apply bool_decide_eq_true |].
  split.
  { apply dict_get_none. rewrite dict_keys_pop. intros Hin.
    apply filter_In in Hin as [_ Hin].
    now rewrite bool_decide_eq_true_2 in Hin. }
  intros Hnone. rewrite (dict_pop_absent _ _ Hnone). f_equal.
  apply bool_decide_eq_false. now rewrite Hnone.
Qed.

(** ** [FileManager] *)

Section FileManagerFacts.

Variable abspath : str -> str.
Variable _read : str -> read_result.


Lemma entries_for_upsert_file ctx p text :
  entries_for p (upsert_file ctx p text) = [file_entry (_max_file_tokens ctx) p text].
Proof.
  unfold entries_for. rewrite upsert_file_files, List.filter_app, filter_without_entry.
  simpl. now rewrite is_entry_file_entry.
Qed.

(** X21: when the file cannot be read, [load] returns [False] with the
    message and changes nothing. When it can, [load] returns [True]:
    the path is loaded, [get_content] returns the whole text, the file
    layer holds one entry for the path, with the text truncated to the
    per-file budget, and the content of the other paths is as before. *)
Theorem load_stores_text (self : Files.FileManager) (path : str) :
  (forall err, _read (abspath path) = ReadError err ->
     Files.load abspath _read self path = ((false, Some err), self))
  /\ (forall text, _read (abspath path) = ReadOk text ->
      fst (Files.load abspath _read self path) = (true, None)
      /\ Files.is_loaded abspath (snd (Files.load abspath _read self path)) path
           = true
      /\ Files.get_content abspath (snd (Files.load abspath _read self path)) path
           = Some text
      /\ entries_for (abspath path)
           (Files._ctx (snd (Files.load abspath _read self path)))
           = [file_entry (_max_file_tokens (Files._ctx self)) (abspath path) text]
      /\ (forall other, abspath other <> abspath path ->
            Files.get_content abspath (snd (Files.load abspath _read self path)) other
              = Files.get_content abspath self other)).
Proof.
  unfold Files.load. split.
  - intros err Hread. now rewrite Hread.
  - intros text Hread. rewrite Hread.
    unfold Files.is_loaded, Files.get_content, Files.set_state.
    cbn [fst snd Files._ctx Files._store].
    repeat split.
    + apply dict_contains_keys. rewrite dict_keys_set.
      destruct (Dict.contains (Files._store self) (abspath path)) eqn:Hc.
      * now apply dict_contains_keys.
      * apply in_or_app. right. now left.
    + apply dict_get_set_eq.
    + apply entries_for_upsert_file.
    + intros other Hne. now apply dict_get_set_ne.
Qed.


Hypothesis abspath_idempotent : forall p, abspath (abspath p) = abspath p.

Lemma store_set_state (self : Files.FileManager) ctx store :
  Files._store (Files.set_state self ctx store) = store.
Proof. reflexivity. Qed.

Lemma ctx_set_state (self : Files.FileManager) ctx store :
  Files._ctx (Files.set_state self ctx store) = ctx.
Proof. reflexivity. Qed.

Lemma set_state_same (self : Files.FileManager) :
  Files.set_state self (Files._ctx self) (Files._store self) = self.
Proof. now destruct self. Qed.

(** [unload] of a path whose absolute form is [k]. *)
Lemma unload_unfold (self : Files.FileManager) path force :
  Files.unload abspath self path force =
    if bool_decide (abspath path ∈ _pinned_files (Files._ctx self)) && negb force
    then (false, self)
    else (true,
          Files.set_state self
            (set_pinned
               (set_files (Files._ctx self)
                  (without_entry (abspath path) (_file_messages (Files._ctx self))))
               (_pinned_files (Files._ctx self) ∖ {[abspath path]}))
            (Dict.pop (Files._store self) (abspath path))).
Proof.
  unfold Files.unload, remove_file. rewrite abspath_idempotent.
  destruct (bool_decide (abspath path ∈ _pinned_files (Files._ctx self)) && negb force).
  - now rewrite set_state_same.
  - reflexivity.
Qed.


(** *** The store and the file layer stay in sync *)

Lemma sync_load (self : Files.FileManager) path :
  no_line_break (abspath path) ->
  Files.in_sync abspath self ->
  Files.in_sync abspath (snd (Files.load abspath _read self path)).
Proof.
  intros Hnl Hsync. unfold Files.load.
  destruct (_read (abspath path)) as [text | err]; [| exact Hsync].
  destruct Hsync as (Hnd & Hstore & Hfiles & Hpin).
  set (k := abspath path) in *.
  unfold Files.in_sync, Files.set_state. cbn [snd Files._ctx Files._store].
  rewrite upsert_file_files, upsert_file_max_file_tokens.
  change (_pinned_files (upsert_file (Files._ctx self) k text))
    with (_pinned_files (Files._ctx self)).
  set (mft := _max_file_tokens (Files._ctx self)) in *.
  split; [now apply dict_nodup_set |]. split; [| split].
  - intros k' v' Hin. apply dict_in_set in Hin as [[-> ->] | [Hne Hin]].
    + repeat split; [apply abspath_idempotent | assumption |].
      apply in_or_app. right. now left.
    + destruct (Hstore k' v' Hin) as (Habs & Hnl' & Hentry).
      repeat split; try assumption.
      apply in_or_app. left. apply filter_In. split; [assumption |].
      destruct (is_entry k (file_entry mft k' v')) eqn:E; [| reflexivity].
      apply is_entry_file_entry_inv in E; [congruence | assumption | assumption].
  - intros m Hin. apply in_app_or in Hin as [Hin | [<- | []]].
    + apply filter_In in Hin as [Hin Hne].
      destruct (Hfiles m Hin) as (k' & v' & Hkv & ->).
      exists k', v'. split; [| reflexivity].
      apply dict_in_set. right. split; [| assumption].
      intros ->. now rewrite is_entry_file_entry in Hne.
    + exists k, text. split; [| reflexivity]. apply dict_in_set. now left.
  - intros q Hq. specialize (Hpin q Hq). rewrite dict_keys_set.
    destruct (Dict.contains (Files._store self) k); [assumption |].
    apply in_or_app. now left.
Qed.

Lemma sync_unload (self : Files.FileManager) path force :
  no_line_break (abspath path) ->
  Files.in_sync abspath self ->
  Files.in_sync abspath (snd (Files.unload abspath self path force)).
Proof.
  intros Hnl Hsync. rewrite unload_unfold.
  destruct (bool_decide (abspath path ∈ _pinned_files (Files._ctx self)) && negb force);
    [exact Hsync |].
  destruct Hsync as (Hnd & Hstore & Hfiles & Hpin).
  set (k := abspath path) in *.
  unfold Files.in_sync, Files.set_state.
  cbn [snd Files._ctx Files._store set_pinned set_files _file_messages
       _pinned_files _max_file_tokens].
  set (mft := _max_file_tokens (Files._ctx self)) in *.
  split; [now apply dict_nodup_pop |]. split; [| split].
  - intros k' v' Hin. apply dict_in_pop in Hin as [Hin Hne].
    destruct (Hstore k' v' Hin) as (Habs & Hnl' & Hentry).
    repeat split; try assumption.
    apply filter_In. split; [assumption |].
    destruct (is_entry k (file_entry mft k' v')) eqn:E; [| reflexivity].
    apply is_entry_file_entry_inv in E; [congruence | assumption | assumption].
  - intros m Hin. apply filter_In in Hin as [Hin Hne].
    destruct (Hfiles m Hin) as (k' & v' & Hkv & ->).
    exists k', v'. split; [| reflexivity].
    apply dict_in_pop. split; [assumption |].
    intros ->. now rewrite is_entry_file_entry in Hne.
  - intros q Hq. apply elem_of_difference in Hq as [Hq Hout].
    rewrite dict_keys_pop. apply filter_In. split; [now apply Hpin |].
    apply negb_true_iff, bool_decide_eq_false. intros ->.
    apply Hout. now apply elem_of_singleton.
Qed.

Lemma sync_unload_each paths force : forall acc,
  Forall (fun p => no_line_break (abspath p)) paths ->
  Files.in_sync abspath (snd acc) ->
  Files.in_sync abspath
    (snd (fold_left
            (fun acc p =>
               let '(removed, self') := Files.unload abspath (snd acc) p force in
               (if removed then fst acc + 1 else fst acc, self'))
            paths acc)).
Proof.
  induction paths as [| p paths IH]; intros acc Hps Hsync; [exact Hsync |].
  apply Forall_cons in Hps as [Hp Hps]. cbn [fold_left].
  apply IH; [assumption |].
  pose proof (sync_unload (snd acc) p force Hp Hsync) as Hstep.
  now destruct (Files.unload abspath (snd acc) p force).
Qed.

Lemma sync_keys (self : Files.FileManager) :
  Files.in_sync abspath self ->
  Forall (fun p => abspath p = p /\ no_line_break p) (Dict.keys (Files._store self)).
Proof.
  intros (_ & Hstore & _). apply List.Forall_forall. intros k Hk.
  apply dict_in_keys in Hk as [v Hin].
  destruct (Hstore k v Hin) as (Habs & Hnl & _). now split.
Qed.

Lemma sync_step (self : Files.FileManager) o :
  Files.op_ok abspath o ->
  Files.in_sync abspath self ->
  Files.in_sync abspath (Files.step abspath _read self o).
Proof.
  intros Hop Hsync. destruct o as [p | p force | keep | folder | p | p];
    cbn [Files.step Files.op_ok] in *.
  - now apply sync_load.
  - now apply sync_unload.
  - unfold Files.unload_all, Files.unload_each.
    apply sync_unload_each; [| exact Hsync].
    eapply List.Forall_impl; [| exact (sync_keys self Hsync)].
    intros k [Habs Hnl]. simpl. now rewrite Habs.
  - unfold Files.unload_folder, Files.unload_each.
    apply sync_unload_each; [| exact Hsync].
    apply List.Forall_forall. intros k Hk. apply filter_In in Hk as [Hk _].
    pose proof (proj1 (List.Forall_forall _ _) (sync_keys self Hsync) k Hk) as [Habs Hnl].
    now rewrite Habs.
  - unfold pin_file.
    destruct (existsb (is_entry (abspath p)) (_file_messages (Files._ctx self))) eqn:Hex;
      cbn [snd]; [| now rewrite set_state_same].
    destruct Hsync as (Hnd & Hstore & Hfiles & Hpin).
    unfold Files.in_sync, Files.set_state.
    cbn [Files._ctx Files._store set_pinned _pinned_files _file_messages
         _max_file_tokens].
    split; [assumption |]. split; [exact Hstore |]. split; [exact Hfiles |].
    intros q Hq. apply elem_of_union in Hq as [Hq | Hq]; [| now apply Hpin].
    apply elem_of_singleton in Hq as ->.
    apply existsb_exists in Hex as (m & Hm & Hqm).
    destruct (Hfiles m Hm) as (k & v & Hkv & ->).
    destruct (Hstore k v Hkv) as (_ & Hnl & _).
    apply is_entry_file_entry_inv in Hqm as <-; [| assumption | assumption].
    apply dict_in_keys. now exists v.
  - destruct Hsync as (Hnd & Hstore & Hfiles & Hpin).
    unfold Files.in_sync, Files.set_state, unpin_file.
    cbn [Files._ctx Files._store set_pinned _pinned_files _file_messages
         _max_file_tokens].
    split; [assumption |]. split; [exact Hstore |]. split; [exact Hfiles |].
    intros q Hq. apply elem_of_difference in Hq as [Hq _]. now apply Hpin.
Qed.

(** Under [in_sync], a path is loaded exactly when the file layer has an
    entry for it. *)
Lemma sync_is_loaded (self : Files.FileManager) path :
  Files.in_sync abspath self ->
  no_line_break (abspath path) ->
  Files.is_loaded abspath self path
    = existsb (is_entry (abspath path)) (_file_messages (Files._ctx self)).
Proof.
  intros (Hnd & Hstore & Hfiles & Hpin) Hnl. unfold Files.is_loaded.
  apply eq_true_iff_eq. rewrite dict_contains_keys, existsb_exists. split.
  - intros Hk. apply dict_in_keys in Hk as [v Hin].
    destruct (Hstore _ v Hin) as (_ & _ & Hentry).
    eexists. split; [exact Hentry | apply is_entry_file_entry].
  - intros (m & Hm & Hqm).
    destruct (Hfiles m Hm) as (k & v & Hkv & ->).
    destruct (Hstore k v Hkv) as (_ & Hnlk & _).
    apply is_entry_file_entry_inv in Hqm as <-; [| assumption | assumption].
    apply dict_in_keys. now exists v.
Qed.

(** X23: starting with an empty store, an empty file layer and no pin,
    after any sequence of [load], [unload], [unload_all],
    [unload_folder], [pin_file] and [unpin_file] calls on paths whose
    absolute form holds no line break, the store and the file layer hold
    the same files: the file layer holds the truncated text of every
    stored path and nothing else, a path is loaded exactly when it has
    an entry, and every pinned path is loaded. *)
Theorem store_and_context_in_sync (self : Files.FileManager) (ops : list Files.op) :
  Files._store self = [] ->
  _file_messages (Files._ctx self) = [] ->
  _pinned_files (Files._ctx self) = ∅ ->
  Forall (Files.op_ok abspath) ops ->
  let after := Files.run abspath _read self ops in
  Files.in_sync abspath after
  /\ (forall path, no_line_break (abspath path) ->
        Files.is_loaded abspath after path
          = existsb (is_entry (abspath path)) (_file_messages (Files._ctx after)))
  /\ (forall path, Files.get_pin_status abspath after path = true ->
        Files.is_loaded abspath after path = true).
Proof.
  intros Hstore Hfiles Hpins Hops after.
  assert (Hsync : Files.in_sync abspath after).
  { assert (Hinit : Files.in_sync abspath self).
    { unfold Files.in_sync. rewrite Hstore, Hfiles, Hpins.
      split; [constructor |]. split; [intros k v [] |]. split; [intros m [] |].
      intros q Hq. now apply not_elem_of_empty in Hq. }
    subst after. unfold Files.run. clear Hstore Hfiles Hpins.
    revert self Hinit. induction ops as [| o ops IH]; intros self Hinit; [exact Hinit |].
    apply Forall_cons in Hops as [Ho Hops]. cbn [fold_left].
    apply IH; [assumption |]. now apply sync_step. }
  split; [exact Hsync |]. split.
  - intros path Hnl. now apply sync_is_loaded.
  - intros path Hpin. unfold Files.get_pin_status, is_pinned in Hpin.
    apply bool_decide_eq_true in Hpin.
    destruct Hsync as (_ & _ & _ & Hpinned).
    unfold Files.is_loaded. apply dict_contains_keys. now apply Hpinned.
Qed.

(** *** [unload_all] *)

Lemma filter_all {A} (f : A -> bool) l :
  (forall x, In x l -> f x = true) -> List.filter f l = l.
Proof.
  induction l as [| x l IH]; intros Hall; simpl; [reflexivity |].
  rewrite (Hall x (or_introl eq_refl)). f_equal.
  apply IH. intros y Hy. apply Hall. now right.
Qed.

Lemma filter_none {A} (f : A -> bool) l :
  (forall x, In x l -> f x = false) -> List.filter f l = [].
Proof.
  induction l as [| x l IH]; intros Hall; simpl; [reflexivity |].
  rewrite (Hall x (or_introl eq_refl)).
  apply IH. intros y Hy. apply Hall. now right.
Qed.

Lemma filter_filter_and {A} (f g : A -> bool) l :
  List.filter f (List.filter g l) = List.filter (fun x => g x && f x) l.
Proof.
  induction l as [| x l IH]; simpl; [reflexivity |].
  destruct (g x); simpl; [| exact IH].
  destruct (f x); now rewrite IH.
Qed.

Lemma existsb_eq_in (k : str) paths :
  existsb (fun p => bool_decide (p = k)) paths = true <-> In k paths.
Proof.
  rewrite existsb_exists. split.
  - intros (p & Hp & Heq). apply bool_decide_eq_true in Heq. now subst.
  - intros Hin. exists k. split; [assumption | now apply bool_decide_eq_true].
Qed.

Lemma unload_each_cons (self : Files.FileManager) p paths force :
  Files.unload_each abspath self (p :: paths) force =
    ((if fst (Files.unload abspath self p force) then 1 else 0)
     + fst (Files.unload_each abspath (snd (Files.unload abspath self p force))
              paths force),
     snd (Files.unload_each abspath (snd (Files.unload abspath self p force))
            paths force)).
Proof.
  unfold Files.unload_each. cbn [fold_left fst snd].
  destruct (Files.unload abspath self p force) as [removed self1]. cbn [fst snd].
  assert (Hacc : forall ps c0 c1 fm,
    fold_left
      (fun acc q =>
         let '(removed0, self') := Files.unload abspath (snd acc) q force in
         (if removed0 then fst acc + 1 else fst acc, self'))
      ps (c0 + c1, fm)
    = (c0 + fst (fold_left
                   (fun acc q =>
                      let '(removed0, self') := Files.unload abspath (snd acc) q force in
                      (if removed0 then fst acc + 1 else fst acc, self'))
                   ps (c1, fm)),
       snd (fold_left
              (fun acc q =>
                 let '(removed0, self') := Files.unload abspath (snd acc) q force in
                 (if removed0 then fst acc + 1 else fst acc, self'))
              ps (c1, fm)))).
  { induction ps as [| q ps IH]; intros c0 c1 fm; cbn [fold_left fst snd];
      [reflexivity |].
    destruct (Files.unload abspath fm q force) as [[] fm1].
    - rewrite <- Z.add_assoc. apply IH.
    - apply IH. }
  destruct removed; [exact (Hacc paths 1 0 self1) | exact (Hacc paths 0 0 self1)].
Qed.

(** [unload] without [force] on each of [paths]: the pins stay, and the
    paths that go are those that are not pinned. *)
Lemma unload_each_keep paths : forall self : Files.FileManager,
  Forall (fun p => abspath p = p) paths ->
  _pinned_files (Files._ctx (snd (Files.unload_each abspath self paths false)))
    = _pinned_files (Files._ctx self)
  /\ Dict.keys (Files._store (snd (Files.unload_each abspath self paths false)))
       = List.filter
           (fun k => bool_decide (k ∈ _pinned_files (Files._ctx self))
                     || negb (existsb (fun p => bool_decide (p = k)) paths))
           (Dict.keys (Files._store self))
  /\ fst (Files.unload_each abspath self paths false)
       = len (List.filter
                (fun p => negb (bool_decide (p ∈ _pinned_files (Files._ctx self))))
                paths).
Proof using abspath abspath_idempotent.
  induction paths as [| p paths IH]; intros self Hps.
  - cbn. repeat split. symmetry. apply filter_all. intros k _. apply orb_true_r.
  - apply Forall_cons in Hps as [Hp Hps].
    rewrite unload_each_cons, unload_unfold, Hp. rewrite andb_true_r.
    destruct (bool_decide (p ∈ _pinned_files (Files._ctx self))) eqn:Hpin;
      cbn [fst snd].
    + destruct (IH self Hps) as (Hpins & Hkeys & Hcount).
      split; [exact Hpins |]. split.
      * rewrite Hkeys. apply filter_ext. intros k. cbn [existsb].
        destruct (bool_decide (p = k)) eqn:E; [| reflexivity].
        apply bool_decide_eq_true in E as <-. now rewrite Hpin.
      * rewrite Hcount. cbn [List.filter]. now rewrite Hpin.
    + apply bool_decide_eq_false in Hpin.
      assert (Hsame : _pinned_files (Files._ctx self) ∖ {[p]}
                      = _pinned_files (Files._ctx self)).
      { apply set_eq. intros q. rewrite elem_of_difference, elem_of_singleton.
        split; [now intros [Hq _] |]. intros Hq. split; [exact Hq |]. now intros ->. }
      rewrite Hsame.
      destruct (IH (Files.set_state self
                      (set_pinned
                         (set_files (Files._ctx self)
                            (without_entry p (_file_messages (Files._ctx self))))
                         (_pinned_files (Files._ctx self)))
                      (Dict.pop (Files._store self) p)) Hps)
        as (Hpins & Hkeys & Hcount).
      split; [exact Hpins |]. split.
      * rewrite Hkeys, store_set_state, ctx_set_state.
        cbn [set_pinned _pinned_files].
        rewrite dict_keys_pop, filter_filter_and.
        apply filter_ext. intros k. cbn [existsb].
        destruct (bool_decide (k = p)) eqn:E.
        -- apply bool_decide_eq_true in E as ->.
           rewrite (bool_decide_eq_true_2 (p = p) eq_refl).
           now rewrite (bool_decide_eq_false_2 _ Hpin).
        -- apply bool_decide_eq_false in E.
           rewrite (bool_decide_eq_false_2 (p = k)) by congruence. reflexivity.
      * rewrite Hcount, ctx_set_state.
        cbn [set_pinned _pinned_files List.filter].
        rewrite (bool_decide_eq_false_2 _ Hpin). cbn [negb].
        unfold len. simpl length. lia.
Qed.

(** [unload] with [force] on each of [paths]: all of them go, with their
    entries and their pins. *)
Lemma unload_each_force paths : forall self : Files.FileManager,
  Forall (fun p => abspath p = p) paths ->
  (forall q, q ∈ _pinned_files
               (Files._ctx (snd (Files.unload_each abspath self paths true)))
             -> q ∈ _pinned_files (Files._ctx self) /\ ~ In q paths)
  /\ Dict.keys (Files._store (snd (Files.unload_each abspath self paths true)))
       = List.filter (fun k => negb (existsb (fun p => bool_decide (p = k)) paths))
           (Dict.keys (Files._store self))
  /\ _file_messages (Files._ctx (snd (Files.unload_each abspath self paths true)))
       = List.filter (fun m => forallb (fun p => negb (is_entry p m)) paths)
           (_file_messages (Files._ctx self))
  /\ fst (Files.unload_each abspath self paths true) = len paths.
Proof using abspath abspath_idempotent.
  induction paths as [| p paths IH]; intros self Hps.
  - cbn. split; [| split; [| split]].
    + intros q Hq. split; [exact Hq | now intros []].
    + symmetry. now apply filter_all.
    + symmetry. now apply filter_all.
    + reflexivity.
  - apply Forall_cons in Hps as [Hp Hps].
    rewrite unload_each_cons, unload_unfold, Hp. rewrite andb_false_r.
    cbn [fst snd].
    destruct (IH (Files.set_state self
                    (set_pinned
                       (set_files (Files._ctx self)
                          (without_entry p (_file_messages (Files._ctx self))))
                       (_pinned_files (Files._ctx self) ∖ {[p]}))
                    (Dict.pop (Files._store self) p)) Hps)
      as (Hpins & Hkeys & Hfiles & Hcount).
    split; [| split; [| split]].
    + intros q Hq. destruct (Hpins q Hq) as [Hin Hout].
      rewrite ctx_set_state in Hin. cbn [set_pinned _pinned_files] in Hin.
      apply elem_of_difference in Hin as [Hin Hne].
      split; [assumption |]. intros [-> | Hq']; [| contradiction].
      apply Hne. now apply elem_of_singleton.
    + rewrite Hkeys, store_set_state, dict_keys_pop, filter_filter_and.
      apply filter_ext. intros k. cbn [existsb].
      destruct (bool_decide (k = p)) eqn:E.
      * apply bool_decide_eq_true in E as ->.
        now rewrite (bool_decide_eq_true_2 (p = p) eq_refl).
      * apply bool_decide_eq_false in E.
        rewrite (bool_decide_eq_false_2 (p = k)) by congruence. reflexivity.
    + rewrite Hfiles, ctx_set_state. cbn [set_pinned set_files _file_messages].
      unfold without_entry. rewrite filter_filter_and.
      apply filter_ext. intros m. reflexivity.
    + rewrite Hcount. unfold len. simpl length. lia.
Qed.


End FileManagerFacts.

Lemma load_stores_text_witness :
  let read_disk := fun _ : str => ReadOk (lit "print(1)") in
  let self := Files.init (init [] 4500 1500 40) 12 [lit "*.py"] in
  Files.get_content (fun p => p)
    (snd (Files.load (fun p => p) read_disk self (lit "/a.py"))) (lit "/a.py")
  = Some (lit "print(1)").
Proof.
  intros read_disk self.
  exact (proj1 (proj2 (proj2
    (proj2 (load_stores_text (fun p => p) read_disk self (lit "/a.py"))
       (lit "print(1)") eq_refl)))).
Defined.


Lemma store_and_context_in_sync_witness :
  let read_disk := fun _ : str => ReadOk (lit "x") in
  let self := Files.init (init [] 4500 1500 40) 12 [lit "*.py"] in
  let ops := [Files.Load (lit "/a"); Files.Pin (lit "/a"); Files.Load (lit "/b");
              Files.UnloadAll true] in
  Files.in_sync (fun p => p) (Files.run (fun p => p) read_disk self ops).
Proof.
  intros read_disk self ops.
  assert (Hline : forall c d : ascii, c <> nl -> d <> nl -> no_line_break [c; d]).
  { intros c d Hc Hd [H | [H | []]]; congruence. }
  refine (proj1 (store_and_context_in_sync (fun p => p) read_disk (fun p => eq_refl)
                   self ops eq_refl eq_refl eq_refl _)).
  repeat constructor; simpl; try exact I; apply Hline; discriminate.
Defined.


(** ** [_discover] and [load_folder] *)

Lemma insert_sorted_in x y l : In y (insert_sorted x l) <-> y = x \/ In y l.
Proof.
  induction l as [| z l IH]; simpl; [intuition |].
  destruct (str_leb x z); simpl; [intuition |]. rewrite IH. intuition.
Qed.

Lemma sorted_in y files : In y (sorted files) <-> In y files.
Proof.
  unfold sorted. induction files as [| x files IH]; simpl; [reflexivity |].
  rewrite insert_sorted_in, IH. intuition.
Qed.

Lemma unique_from_spec (abspath : str -> str) files : forall seen,
  List.NoDup (Files.unique_from abspath seen files)
  /\ (forall p, In p (Files.unique_from abspath seen files) ->
        (p ∉ seen) /\ exists f, In f files /\ p = abspath f).
Proof.
  induction files as [| f files IH]; intros seen; cbn [Files.unique_from].
  - split; [constructor | intros p []].
  - destruct (bool_decide (abspath f ∈ seen)) eqn:E.
    + destruct (IH seen) as [Hnd Hin]. split; [exact Hnd |].
      intros p Hp. destruct (Hin p Hp) as (Hout & g & Hg & ->).
      split; [exact Hout |]. exists g. split; [now right | reflexivity].
    + apply bool_decide_eq_false in E.
      destruct (IH ({[abspath f]} ∪ seen)) as [Hnd Hin]. split.
      * constructor; [| exact Hnd]. intros Hp.
        destruct (Hin _ Hp) as [Hout _]. apply Hout.
        apply elem_of_union. left. now apply elem_of_singleton.
      * intros p [<- | Hp].
        -- split; [exact E |]. exists f. split; [now left | reflexivity].
        -- destruct (Hin p Hp) as (Hout & g & Hg & ->).
           split.
           ++ intros Hs. apply Hout. apply elem_of_union. now right.
           ++ exists g. split; [now right | reflexivity].
Qed.

Lemma slice_to_prefix {A} (l : list A) n : exists k, slice_to l n = firstn k l.
Proof. unfold slice_to. now eexists. Qed.

Lemma NoDup_firstn {A} k (l : list A) : List.NoDup l -> List.NoDup (firstn k l).
Proof.
  intros Hnd. rewrite <- (firstn_skipn k l) in Hnd.
  now apply NoDup_app_remove_r in Hnd.
Qed.

Lemma In_firstn {A} k (l : list A) x : In x (firstn k l) -> In x l.
Proof.
  intros Hin. rewrite <- (firstn_skipn k l). apply in_or_app. now left.
Qed.

(** X25: [_discover] returns absolute paths of files the glob found for
    one of the extensions, each once; with [max_files] at least zero it
    returns at most [max_files] paths. [load_folder] tries each of them
    once: the number it loaded and the number of its error lines add up
    to the number of paths discovered. *)
Theorem discover_and_load_folder (abspath : str -> str) (read_disk : str -> read_result)
    (glob : str -> str -> list str) (self : Files.FileManager) (folder : str)
    (extensions : list str) (given : option (list str)) :
  List.NoDup (Files._discover abspath glob self folder extensions)
  /\ (forall p, In p (Files._discover abspath glob self folder extensions) ->
        exists ext f, In ext extensions /\ In f (glob folder ext) /\ p = abspath f)
  /\ (0 <= Files._max_files self ->
        len (Files._discover abspath glob self folder extensions)
          <= Files._max_files self)
  /\ (let '(loaded, errors, _) :=
        Files.load_folder abspath read_disk glob self folder given in
      let ext_list := match given with
                      | Some (e :: es) => e :: es
                      | _ => Files._extensions self
                      end in
      loaded + len errors = len (Files._discover abspath glob self folder ext_list)
      /\ 0 <= loaded).
Proof.
  destruct (unique_from_spec abspath (sorted (flat_map (glob folder) extensions)) ∅)
    as [Hnd Hin].
  destruct (slice_to_prefix
              (Files.unique_from abspath ∅ (sorted (flat_map (glob folder) extensions)))
              (Files._max_files self)) as [k Hk].
  split; [| split; [| split]].
  - unfold Files._discover. rewrite Hk. now apply NoDup_firstn.
  - unfold Files._discover. intros p Hp. rewrite Hk in Hp. apply In_firstn in Hp.
    destruct (Hin p Hp) as (_ & f & Hf & ->).
    apply (proj1 (sorted_in _ _)) in Hf.
    apply (proj1 (in_flat_map _ _ _)) in Hf as (ext & Hext & Hf).
    now exists ext, f.
  - intros Hmax. unfold Files._discover, slice_to, norm_index, len.
    rewrite length_firstn.
    destruct (Z.ltb_spec (Files._max_files self) 0); lia.
  - unfold Files.load_folder, Files.load_each.
    set (paths := Files._discover abspath glob self folder _). clearbody paths.
    assert (Hacc : forall ps loaded errors fm,
      let '(loaded', errors', _) :=
        fold_left
          (fun acc path =>
             let '(loaded0, errors0, self0) := acc in
             match Files.load abspath read_disk self0 path with
             | ((true, _), self') => (loaded0 + 1, errors0, self')
             | ((false, err), self') =>
                 let shown := match err with Some e => e | None => lit "None" end in
                 (loaded0, errors0 ++ [path ++ lit ": " ++ shown], self')
             end)
          ps (loaded, errors, fm) in
      loaded' + len errors' = loaded + len errors + len ps /\ loaded <= loaded').
    { induction ps as [| p ps IH]; intros loaded errors fm; cbn [fold_left].
      - unfold len. simpl. lia.
      - destruct (Files.load abspath read_disk fm p) as [[[] err] fm1].
        + specialize (IH (loaded + 1) errors fm1).
          destruct (fold_left _ ps (loaded + 1, errors, fm1)) as [[l' e'] fm'].
          destruct IH as [IH1 IH2]. unfold len in *.
          simpl length. rewrite Nat2Z.inj_succ. split; lia.
        + specialize (IH loaded
                        (errors ++ [p ++ lit ": "
                                    ++ match err with
                                       | Some e => e
                                       | None => lit "None"
                                       end]) fm1).
          destruct (fold_left _ ps (loaded, _, fm1)) as [[l' e'] fm'].
          destruct IH as [IH1 IH2]. unfold len in *.
          rewrite length_app in IH1. simpl length in IH1. simpl length.
          rewrite Nat2Z.inj_succ. split; lia. }
    specialize (Hacc paths 0 [] self).
    destruct (fold_left _ paths (0, [], self)) as [[loaded errors] fm].
    destruct Hacc as [H1 H2]. unfold len in *. simpl length in H1.
    cbv zeta. split; [| exact H2]. exact (eq_trans H1 eq_refl).
Qed.

Lemma discover_and_load_folder_witness :
  let glob := fun (folder ext : str) => [lit "b.py"; lit "a.py"; lit "b.py"] in
  let self := Files.init (init [] 4500 1500 40) 2 [lit "*.py"] in
  len (Files._discover (fun p => p) glob self (lit ".") [lit "*.py"]) <= 2.
Proof.
  intros glob self.
  apply (proj1 (proj2 (proj2
    (discover_and_load_folder (fun p => p) (fun _ => ReadOk []) glob self (lit ".")
       [lit "*.py"] None)))).
  simpl. lia.
Defined.
